(** * Dimension ordering and stencil extraction of Devito

    A shallow embedding of [devito/ir/equations/algorithms.py]
    ([dimension_sort] with its local functions [handle_indexed] and
    [order_relations]) and of [devito/stencil.py] (the [Stencil] class),
    together with the properties of both that the specification states. *)

From Stdlib Require Import List String Ascii ZArith Bool Arith Lia Permutation.
Import ListNotations.
Open Scope list_scope.

(** ** Symbolic objects *)

#[local] Unset Elimination Schemes.

(** A [Dimension] is a named symbol; [is_Space] tells a space axis from the
    others, and a derived dimension carries its [parent]. *)
Inductive Dimension : Type :=
  mkDimension { name : string; is_Space : bool; parent : option Dimension }.

Definition is_Derived (d : Dimension) : bool :=
  match parent d with Some _ => true | None => false end.

(** [d.root]: the topmost ancestor along [parent]. *)
Fixpoint root (d : Dimension) : Dimension :=
  match d with
  | mkDimension _ _ (Some p) => root p
  | mkDimension _ _ None => d
  end.

Fixpoint Dimension_eqb (a b : Dimension) : bool :=
  match a, b with
  | mkDimension n1 s1 p1, mkDimension n2 s2 p2 =>
      String.eqb n1 n2 && Bool.eqb s1 s2 &&
      match p1, p2 with
      | Some q1, Some q2 => Dimension_eqb q1 q2
      | None, None => true
      | _, _ => false
      end
  end.

(** Equality of two tuples, element by element. *)
Fixpoint list_eqb {A} (eqb : A -> A -> bool) (l m : list A) : bool :=
  match l, m with
  | [], [] => true
  | x :: l', y :: m' => eqb x y && list_eqb eqb l' m'
  | _, _ => false
  end.

(** The function an access refers to; [indices] are its declared
    dimensions ([i.function.indices]). *)
Record Function : Type :=
  mkFunction { fname : string; findices : list Dimension }.

Definition Function_eqb (f g : Function) : bool :=
  String.eqb (fname f) (fname g)
  && list_eqb Dimension_eqb (findices f) (findices g).

(** Heads of the composite nodes of an expression tree.  A power and a
    function application carry what they answer to [is_integer]: that
    answer comes from assumptions (signs, the function at hand) that the
    tree does not show. *)
Inductive Head : Type :=
| HAdd | HMul | HPow (integer : bool) | HTuple
| HApp (f : string) (integer : bool).

Definition Head_eqb (h k : Head) : bool :=
  match h, k with
  | HAdd, HAdd | HMul, HMul | HTuple, HTuple => true
  | HPow i, HPow j => Bool.eqb i j
  | HApp f i, HApp g j => String.eqb f g && Bool.eqb i j
  | _, _ => false
  end.

(** Expression trees as the code sees them: a dimension, another symbol
    (with its integer assumption), an integer literal, the base of an
    access, an indexed access, or a composite node with its arguments. *)
Inductive Expr : Type :=
| EDim (d : Dimension)
| ESymbol (n : string) (integer : bool)
| EInteger (z : Z)
| EBase (f : Function)
| EIndexed (f : Function) (indices : list Expr)
| ENode (h : Head) (args : list Expr).

Fixpoint Expr_eqb (a b : Expr) : bool :=
  let fix go (l m : list Expr) : bool :=
    match l, m with
    | [], [] => true
    | x :: l', y :: m' => Expr_eqb x y && go l' m'
    | _, _ => false
    end in
  match a, b with
  | EDim d, EDim e => Dimension_eqb d e
  | ESymbol n i, ESymbol m j => String.eqb n m && Bool.eqb i j
  | EInteger z, EInteger w => Z.eqb z w
  | EBase f, EBase g => Function_eqb f g
  | EIndexed f l, EIndexed g m => Function_eqb f g && go l m
  | ENode h l, ENode k m => Head_eqb h k && go l m
  | _, _ => false
  end.

#[local] Set Elimination Schemes.

(** Membership and duplicate removal (first occurrence kept) for Python
    sets kept as lists. *)
Fixpoint mem {A} (eqb : A -> A -> bool) (x : A) (l : list A) : bool :=
  match l with
  | [] => false
  | y :: l' => eqb x y || mem eqb x l'
  end.

Fixpoint unique_aux {A} (eqb : A -> A -> bool) (seen l : list A) : list A :=
  match l with
  | [] => []
  | x :: l' =>
      if mem eqb x seen then unique_aux eqb seen l'
      else x :: unique_aux eqb (x :: seen) l'
  end.

Definition unique {A} (eqb : A -> A -> bool) (l : list A) : list A :=
  unique_aux eqb [] l.

(** ** What the code reads of an expression *)

(** [e.args]: atoms have none; an access has its base, then its indices. *)
Definition args (e : Expr) : list Expr :=
  match e with
  | EIndexed f indices => EBase f :: indices
  | ENode _ l => l
  | _ => []
  end.

(** [isinstance(e, Dimension)]. *)
Definition isDimension (e : Expr) : bool :=
  match e with EDim _ => true | _ => false end.

(** [[d for d in l if isinstance(d, Dimension)]]. *)
Fixpoint only_Dimensions (l : list Expr) : list Dimension :=
  match l with
  | [] => []
  | EDim d :: l' => d :: only_Dimensions l'
  | _ :: l' => only_Dimensions l'
  end.

(** [e.is_integer] holds: of literals, of integer symbols, of sums and
    products of integer arguments, and of the powers and applications
    that say so.  A Dimension answers [None]. *)
Fixpoint is_integer (e : Expr) : bool :=
  match e with
  | EDim _ => false
  | ESymbol _ i => i
  | EInteger _ => true
  | EBase _ => false
  | EIndexed _ _ => false
  | ENode HAdd l | ENode HMul l => forallb is_integer l
  | ENode (HPow i) _ | ENode (HApp _ i) _ => i
  | ENode HTuple _ => false
  end.

(** The attribute [name] that sorting keys read. *)
Definition name_of (e : Expr) : string :=
  match e with
  | EDim d => name d
  | ESymbol n _ => n
  | EBase f | EIndexed f _ => fname f
  | _ => ""%string
  end.

(** All symbols below a node, in encounter order. *)
Fixpoint symbols (e : Expr) : list Expr :=
  match e with
  | EDim _ | ESymbol _ _ | EBase _ => [e]
  | EInteger _ => []
  | EIndexed f indices => EBase f :: flat_map symbols indices
  | ENode _ l => flat_map symbols l
  end.

(** [e.free_symbols], a set. *)
Definition free_symbols (e : Expr) : list Expr :=
  unique Expr_eqb (symbols e).

(** [bool(e)]: everything is true but the integer zero and the empty
    tuple. *)
Definition truthy (e : Expr) : bool :=
  match e with
  | EInteger z => negb (Z.eqb z 0)
  | ENode HTuple [] => false
  | _ => true
  end.

Fixpoint depth (e : Expr) : nat :=
  match e with
  | EIndexed _ l | ENode _ l => S (fold_right (fun x n => Nat.max (depth x) n) 0 l)
  | _ => 0
  end.

(** An equation: both sides, and [expr._subdomain.indices] when the
    equation carries a subdomain ([None] stands for the missing
    attribute). *)
Record Equation : Type :=
  mkEq { lhs : Expr; rhs : Expr; subdomain_indices : option Expr }.

Definition as_Expr (eq : Equation) : Expr :=
  ENode (HApp "Eq"%string false) [lhs eq; rhs eq].

(** ** Exceptions *)

Inductive Error : Type :=
| KeyError | ValueError | IndexError | AttributeError | CycleDetected.

Inductive Result (A : Type) : Type :=
| Ok (a : A)
| Raise (e : Error).
Arguments Ok {A} a.
Arguments Raise {A} e.

Definition bind {A B} (m : Result A) (k : A -> Result B) : Result B :=
  match m with
  | Ok a => k a
  | Raise e => Raise e
  end.

Notation "x <- m ;; k" := (bind m (fun x => k))
  (at level 61, m at next level, right associativity).

Fixpoint mapM {A B} (f : A -> Result B) (l : list A) : Result (list B) :=
  match l with
  | [] => Ok []
  | x :: l' => y <- f x ;; ys <- mapM f l' ;; Ok (y :: ys)
  end.

(** ** Helpers of the package that the two modules import *)

Module Tools.

(** Modelled from the spec: [devito.tools.flatten] is not among the
    sources; it concatenates the relations of the nested accesses, "in
    encounter order". *)
Definition flatten {A} (l : list (list A)) : list A := List.concat l.

(** Stable insertion sort on a string key. *)
Fixpoint insert_by {A} (key : A -> string) (x : A) (l : list A) : list A :=
  match l with
  | [] => [x]
  | y :: l' =>
      if String.leb (key x) (key y) then x :: y :: l'
      else y :: insert_by key x l'
  end.

Fixpoint sort_by {A} (key : A -> string) (l : list A) : list A :=
  match l with
  | [] => []
  | x :: l' => insert_by key x (sort_by key l')
  end.

(** The keys never decrease along [l]. *)
Fixpoint ascending {A} (key : A -> string) (l : list A) : Prop :=
  match l with
  | x :: (y :: _) as l' =>
      String.leb (key x) (key y) = true /\ ascending key l'
  | _ => True
  end.

(** Modelled from the spec: [devito.tools.filter_sorted] is not among
    the sources; the entries of a set, "deterministically sorted by
    name". *)
Definition filter_sorted {A} (eqb : A -> A -> bool) (key : A -> string)
    (elements : list A) : list A :=
  sort_by key (unique eqb elements).

End Tools.

Module Symbolics.

Inductive Mode : Type := ModeUnique | ModeAll.

(** Depth-first search for accesses.  An access is a leaf of the search
    unless [deep] is set, in which case its index expressions are
    searched too (and found before the access itself). *)
Fixpoint search (deep : bool) (e : Expr) : list Expr :=
  match e with
  | EIndexed _ indices =>
      (if deep then flat_map (search deep) indices else []) ++ [e]
  | ENode _ l => flat_map (search deep) l
  | _ => []
  end.

(** Modelled from the spec: [retrieve_indexed] is not among the sources;
    it "search[es] the index expression for nested Indexed Accesses".
    [mode='all'] keeps every occurrence, the default keeps one of each;
    the keyword [deep], which line 70 of algorithms.py sets and the
    other calls leave out, makes the search enter index expressions. *)
Definition retrieve_indexed (mode : Mode) (deep : bool) (e : Expr)
    : list Expr :=
  match mode with
  | ModeAll => search deep e
  | ModeUnique => unique Expr_eqb (search deep e)
  end.

(** The result of a successful decomposition. *)
Record AffineFunction : Type :=
  mkAffine { var : Expr; offset : Z }.

(** Modelled from the spec: [split_affine] is not among the sources.
    "Succeeds iff [expr] is exactly one Dimension optionally combined
    with one integer literal via addition/subtraction (constant
    folded)"; [None] is the [ValueError] of a non-affine expression. *)
Definition split_affine (e : Expr) : option AffineFunction :=
  match e with
  | EDim d => Some (mkAffine (EDim d) 0)
  | ENode HAdd [EInteger k; EDim d] => Some (mkAffine (EDim d) k)
  | ENode HAdd [EDim d; EInteger k] => Some (mkAffine (EDim d) k)
  | _ => None
  end.

End Symbolics.

(** ** The Partial-Order Resolver *)

Module Resolver.

(** The edges of one relation: each element to its immediate
    successor. *)
Fixpoint chain (r : list Dimension) : list (Dimension * Dimension) :=
  match r with
  | a :: (b :: _) as r' => (a, b) :: chain r'
  | _ => []
  end.

(** A dimension that follows itself in a tuple asks for nothing
    ("duplicates are harmless"): it makes no edge. *)
Definition edges (relations : list (list Dimension))
    : list (Dimension * Dimension) :=
  filter (fun e => negb (Dimension_eqb (fst e) (snd e)))
         (flat_map chain relations).

(** The vertices: [elements] in their order, then every other dimension
    of the relations, by name. *)
Definition vertices (elements : list Dimension)
    (relations : list (list Dimension)) : list Dimension :=
  unique Dimension_eqb
    (elements ++ Tools.sort_by name (unique Dimension_eqb (List.concat relations))).

(** [v] has no remaining precedence constraint: no edge reaches it from
    a vertex still to be placed. *)
Definition free (es : list (Dimension * Dimension))
    (remaining : list Dimension) (v : Dimension) : bool :=
  negb (existsb (fun e => Dimension_eqb (snd e) v
                          && mem Dimension_eqb (fst e) remaining) es).

Definition remove (v : Dimension) (l : list Dimension) : list Dimension :=
  filter (fun x => negb (Dimension_eqb x v)) l.

(** One vertex is placed per step: the first free one of [remaining],
    which keeps the order of [vertices]. *)
Fixpoint place (steps : nat) (es : list (Dimension * Dimension))
    (remaining : list Dimension) : Result (list Dimension) :=
  match remaining, steps with
  | [], _ => Ok []
  | _ :: _, 0 => Raise CycleDetected
  | _ :: _, S steps' =>
      match find (free es remaining) remaining with
      | None => Raise CycleDetected
      | Some v =>
          rest <- place steps' es (remove v remaining) ;;
          Ok (v :: rest)
      end
  end.

(** Modelled from the spec: [devito.tools.PartialOrderTuple] is not
    among the sources.  "build a directed graph whose vertices are
    [elements] ∪ every dimension mentioned in any relation; for each
    relation tuple, add an edge from each element to its immediate
    successor in the tuple.  Compute a topological order; among any
    vertices with no remaining precedence constraint at a given step,
    break ties by a fixed deterministic secondary key (declared/insertion
    order of [elements], then name)"; "fails with [CycleDetected] if the
    relations are mutually contradictory". *)
Definition PartialOrderTuple (elements : list Dimension)
    (relations : list (list Dimension)) : Result (list Dimension) :=
  let vs := vertices elements relations in
  place (List.length vs) (edges relations) vs.

End Resolver.

(** ** devito/ir/equations/algorithms.py *)

Module Algorithms.
Import Tools Symbolics Resolver.

(** A relation extracted from an access: a tuple of dimensions. *)
Definition Relation : Type := list Dimension.

Definition Relation_eqb : Relation -> Relation -> bool :=
  list_eqb Dimension_eqb.

(** [indexed.indices] *)
Definition indices_of (indexed : Expr) : list Expr :=
  match indexed with EIndexed _ l => l | _ => [] end.

(** [indexed.function.indices] *)
Definition function_indices (indexed : Expr) : list Dimension :=
  match indexed with EIndexed f _ => findices f | _ => [] end.

(** [handle_indexed], lines 16-33; [fuel] bounds the nesting of accesses
    inside index expressions. *)
Fixpoint handle_indexed_at (fuel : nat) (indexed : Expr) : Relation :=
  match fuel with
  | 0 => []
  | S fuel' =>
      flat_map
        (fun i =>
           match split_affine i with
           | Some af =>
               match var af with
               | EDim maybe_dim => [maybe_dim]
               | _ => []
               end
           | None =>
               let nested :=
                 flatten (map (handle_indexed_at fuel')
                              (retrieve_indexed ModeUnique false i)) in
               match nested with
               | _ :: _ => nested
               | [] =>
                   only_Dimensions
                     (filter_sorted Expr_eqb name_of (free_symbols i))
               end
           end)
        (indices_of indexed)
  end.

Definition handle_indexed (indexed : Expr) : Relation :=
  handle_indexed_at (S (depth indexed)) indexed.

(** The loop of [order_relations], lines 39-52, on the elements still to
    visit and the two lists built so far. *)
Fixpoint order_loop (unordered ordered_ns ordered_sp : list Expr)
    : Result (list Expr * list Expr) :=
  match unordered with
  | [] => Ok (ordered_ns, ordered_sp)
  | i :: rest =>
      let '(ns, sp) :=
        match i with
        | EDim d =>
            if is_Space d then (ordered_ns, ordered_sp ++ [i])
            else (ordered_ns ++ [i], ordered_sp)
        | _ => (ordered_ns, ordered_sp)
        end in
      match args i with
      | [] => order_loop rest ns sp
      | _ :: _ =>
          let dim := only_Dimensions (args i) in
          if 1 <? List.length dim then Raise ValueError
          else
            match dim with
            | [] => Raise IndexError
            | d0 :: _ =>
                if is_Space d0 then order_loop rest ns (sp ++ [i])
                else order_loop rest (ns ++ [i]) sp
            end
      end
  end.

(** [order_relations], lines 35-54. *)
Definition order_relations (unordered : list Expr) : Result (list Expr) :=
  o <- order_loop unordered [] [] ;;
  Ok (fst o ++ snd o).

(** Line 56: the set of the relations of the accesses of [expr]. *)
Definition extracted (expr : Equation) : list Relation :=
  unique Relation_eqb
    (map handle_indexed (retrieve_indexed ModeAll false (as_Expr expr))).

(** Lines 58-63.  [relations] lists the set in the order in which it
    yields its elements, so that [relations.pop()] takes the head; an
    empty set makes [pop] raise [KeyError]. *)
Definition merge_subdomain (relations : list Relation)
    (external_relations : option Expr) : Result (list (list Expr)) :=
  match external_relations with
  | Some s =>
      if truthy s then
        match relations with
        | [] => Raise KeyError
        | r :: _ =>
            o <- order_relations (map EDim r ++ [s]) ;;
            Ok [o]
        end
      else Ok (map (map EDim) relations)
  | None => Ok (map (map EDim) relations)
  end.

(** Lines 65-74: the sorted extra dimensions. *)
Definition extra_of (expr : Equation) : list Dimension :=
  let extra := only_Dimensions (free_symbols (as_Expr expr)) in
  let indexeds := retrieve_indexed ModeUnique true (as_Expr expr) in
  let extra :=
    unique Dimension_eqb (extra ++ flat_map function_indices indexeds) in
  filter_sorted Dimension_eqb name extra.

(** [d.root] for an element of a relation; only a Dimension has the
    attribute. *)
Definition as_Dimension (e : Expr) : Result Dimension :=
  match e with
  | EDim d => Ok d
  | _ => Raise AttributeError
  end.

(** Line 82. *)
Definition parent_relations (extra : list Dimension) : list Relation :=
  flat_map (fun d => match parent d with
                     | Some p => [[p; d]]
                     | None => []
                     end) extra.

(** Lines 76-89: the elements and the relation set handed to
    [PartialOrderTuple].  Line 87 reads [d.root] of every element of
    every relation, so past it every element is a Dimension. *)
Definition resolver_input (set_order : list Relation -> list Relation)
    (expr : Equation) : Result (list Dimension * list Relation) :=
  relations <- merge_subdomain (set_order (extracted expr))
                               (subdomain_indices expr) ;;
  let extra := extra_of expr in
  let implicit_relations := unique Relation_eqb (parent_relations extra) in
  relations <- mapM (mapM as_Dimension) relations ;;
  let implicit_relations :=
    unique Relation_eqb (implicit_relations ++ map (map root) relations) in
  Ok (extra, unique Relation_eqb (relations ++ implicit_relations)).

(** [dimension_sort], lines 10-91.  [set_order] is the order in which the
    set of line 56 yields its elements. *)
Definition dimension_sort (set_order : list Relation -> list Relation)
    (expr : Equation) : Result (list Dimension) :=
  input <- resolver_input set_order expr ;;
  PartialOrderTuple (fst input) (snd input).

(** A set yields each of its elements once, in some order. *)
Definition yields_all (set_order : list Relation -> list Relation) : Prop :=
  forall l, Permutation (set_order l) l.

End Algorithms.

(** ** devito/stencil.py *)

Module Stencil.
Import Tools Symbolics.

(** A set of offsets: the integer [0] or any argument of an index
    expression that is an integer. *)
Definition Offsets : Type := list Expr.

Definition zero : Expr := EInteger 0.

(** [cur.update(l)] and [cur |= l]: the elements of [l] not yet in
    [cur] join it. *)
Definition set_update (cur l : Offsets) : Offsets :=
  fold_left (fun acc x => if mem Expr_eqb x acc then acc else acc ++ [x])
            l cur.

(** Equality of sets: the same elements, in whatever order. *)
Definition set_eqb (a b : Offsets) : bool :=
  forallb (fun x => mem Expr_eqb x b) a
  && forallb (fun x => mem Expr_eqb x a) b.

(** Modelled from the spec: [devito.tools.DefaultOrderedDict] is not
    among the sources.  A Stencil is "a mapping Dimension -> set of
    integers (insertion order over dimensions is significant and must
    equal first-encounter order during construction)", here the list of
    its items in insertion order. *)
Definition t : Type := list (Dimension * Offsets).

(** [Stencil()] *)
Definition empty_stencil : t := [].

(** Plain lookup of a stored key. *)
Fixpoint lookup (s : t) (k : Dimension) : option Offsets :=
  match s with
  | [] => None
  | (k', v) :: s' => if Dimension_eqb k k' then Some v else lookup s' k
  end.

(** What is stored under [k]; nothing when [k] is not stored. *)
Definition stored (s : t) (k : Dimension) : Offsets :=
  match lookup s k with Some v => v | None => [] end.

(** [__setitem__], lines 117-119: a stored key keeps its place, a new
    one goes last. *)
Fixpoint setitem (s : t) (key : Dimension) (val : Offsets) : t :=
  match s with
  | [] => [(key, val)]
  | (k', v) :: s' =>
      if Dimension_eqb key k' then (k', val) :: s'
      else (k', v) :: setitem s' key val
  end.

(** [s[k]]: a missing key is first stored with the default [set()]. *)
Definition getitem (s : t) (k : Dimension) : Offsets * t :=
  match lookup s k with
  | Some v => (v, s)
  | None => ([], setitem s k [])
  end.

(** [s[k].update(l)] and [s[k] |= l]. *)
Definition update_at (s : t) (k : Dimension) (l : Offsets) : t :=
  let '(cur, s1) := getitem s k in
  setitem s1 k (set_update cur l).

(** Lines 67-73: the last Dimension among the arguments, and the integer
    arguments. *)
Fixpoint scan_args (l : list Expr) (d : option Dimension) (off : Offsets)
    : option Dimension * Offsets :=
  match l with
  | [] => (d, off)
  | idx :: l' =>
      match idx with
      | EDim x => scan_args l' (Some x) off
      | _ => if is_integer idx then scan_args l' d (off ++ [idx])
             else scan_args l' d off
      end
  end.

(** Lines 64-75: one index expression [a] of an access. *)
Definition visit_index (stencil : t) (a : Expr) : t :=
  let stencil :=
    match a with
    | EDim x => update_at stencil x [zero]
    | _ => stencil
    end in
  match scan_args (args a) None [] with
  | (Some d, off) => update_at stencil d off
  | (None, _) => stencil
  end.

(** Lines 60-62: the accesses of both sides, then those found in the
    index expressions of these. *)
Definition accesses (expr : Equation) : list Expr :=
  let indexed := retrieve_indexed ModeUnique false (lhs expr)
                 ++ retrieve_indexed ModeUnique false (rhs expr) in
  indexed
  ++ flat_map (fun e => flat_map (retrieve_indexed ModeUnique false)
                                 (Algorithms.indices_of e)) indexed.

(** [Stencil.extract], lines 51-76. *)
Definition extract (expr : Equation) : t :=
  fold_left (fun stencil e => fold_left visit_index (Algorithms.indices_of e) stencil)
            (accesses expr) empty_stencil.

(** [Stencil.union], lines 78-87. *)
Definition union (dicts : list t) : t :=
  fold_left (fun output i =>
               fold_left (fun output kv => update_at output (fst kv) (snd kv))
                         i output)
            dicts empty_stencil.

(** [Stencil.get], lines 113-115; [v] is the optional default. *)
Definition get (s : t) (k : Dimension) (v : option Offsets) : Offsets :=
  let obj := match lookup s k with
             | Some o => Some o
             | None => v
             end in
  match obj with
  | None => [zero]
  | Some o => o
  end.

(** [==] of two ordered mappings: the same keys in the same order, with
    equal sets. *)
Fixpoint eqb (a b : t) : bool :=
  match a, b with
  | [], [] => true
  | (k, v) :: a', (k', v') :: b' =>
      Dimension_eqb k k' && set_eqb v v' && eqb a' b'
  | _, _ => false
  end.

(** Equality of two optional sets. *)
Definition option_eqb (x y : option Offsets) : bool :=
  match x, y with
  | Some v, Some w => set_eqb v w
  | None, None => true
  | _, _ => false
  end.

(** The keys, in insertion order. *)
Definition keys (s : t) : list Dimension := map fst s.

(** The key order after [k] was read with the default: [k] goes last
    unless it is there. *)
Definition add_key (ks : list Dimension) (k : Dimension) : list Dimension :=
  if mem Dimension_eqb k ks then ks else ks ++ [k].

(** The inner loop of [union]: the items of [i] are merged into
    [output]. *)
Definition merge (output i : t) : t :=
  fold_left (fun output kv => update_at output (fst kv) (snd kv)) i output.

(** [x] is an offset of [d] in some item of [s]. *)
Definition holds (s : t) (d : Dimension) (x : Expr) : Prop :=
  exists v, In (d, v) s /\ In x v.

End Stencil.

(** ** What the properties speak of *)

Module Spec.
Import Algorithms.

(** The share of one index expression in the relation of its access:
    the decomposed dimension; or the dimensions of the nested accesses
    when they yield any; or else the dimensions among the free symbols,
    by name. *)
Definition index_relation (i : Expr) : Relation :=
  match Symbolics.split_affine i with
  | Some af =>
      match Symbolics.var af with
      | EDim d => [d]
      | _ => []
      end
  | None =>
      let nested :=
        Tools.flatten (map handle_indexed
                         (Symbolics.retrieve_indexed Symbolics.ModeUnique
                                                     false i)) in
      match nested with
      | _ :: _ => nested
      | [] =>
          only_Dimensions
            (Tools.filter_sorted Expr_eqb name_of (free_symbols i))
      end
  end.

(** The Relation Extractor as the specification words it: the free
    symbols are scanned only "if no nested accesses are found". *)
Fixpoint extract_as_specified_at (fuel : nat) (access : Expr) : Relation :=
  match fuel with
  | 0 => []
  | S fuel' =>
      flat_map
        (fun i =>
           match Symbolics.split_affine i with
           | Some af =>
               match Symbolics.var af with
               | EDim d => [d]
               | _ => []
               end
           | None =>
               match Symbolics.retrieve_indexed Symbolics.ModeUnique
                                                false i with
               | [] =>
                   only_Dimensions
                     (Tools.filter_sorted Expr_eqb name_of (free_symbols i))
               | found =>
                   Tools.flatten (map (extract_as_specified_at fuel') found)
               end
           end)
        (indices_of access)
  end.

Definition extract_as_specified (access : Expr) : Relation :=
  extract_as_specified_at (S (depth access)) access.

(** The NonSpace and the Space dimensions of a relation, each in its
    original relative order. *)
Definition NonSpace_of (r : Relation) : Relation :=
  filter (fun d => negb (is_Space d)) r.

Definition Space_of (r : Relation) : Relation :=
  filter is_Space r.

(** How [order_relations] classifies one element: [Some true] puts it
    with the Space elements, [Some false] with the others, [None] leaves
    it out. *)
Definition kind_of (i : Expr) : Result (option bool) :=
  match i with
  | EDim d => Ok (Some (is_Space d))
  | _ =>
      match args i with
      | [] => Ok None
      | _ :: _ =>
          match only_Dimensions (args i) with
          | [] => Raise IndexError
          | [d0] => Ok (Some (is_Space d0))
          | _ :: _ :: _ => Raise ValueError
          end
      end
  end.

(** The combined relation as the specification words it: the NonSpace
    dimensions of the extraction, then [s], then its Space dimensions. *)
Definition combined_as_specified (r : Relation) (s : Expr) : list Expr :=
  map EDim (NonSpace_of r) ++ [s] ++ map EDim (Space_of r).

(** The combined relation as the loop builds it: [s] joins the elements
    of its own kind, after those of the extraction. *)
Definition combined (r : Relation) (s : Expr) (k : option bool) : list Expr :=
  map EDim (NonSpace_of r)
  ++ match k with Some false => [s] | _ => [] end
  ++ map EDim (Space_of r)
  ++ match k with Some true => [s] | _ => [] end.

(** The condition of [MultipleDimensionsError] as the specification
    words it: more than one relation survives, or some element of the
    combined tuple has more than one Dimension among its arguments. *)
Definition MultipleDimensions_as_specified (relations : list Relation)
    (s : Expr) : Prop :=
  1 < List.length relations
  \/ exists r i, hd_error relations = Some r
                 /\ In i (map EDim r ++ [s])
                 /\ 1 < List.length (only_Dimensions (args i)).

(** [d] is, bare, a whole index expression of some access of the
    equation, at whatever depth the access stands. *)
Definition appears_bare (d : Dimension) (expr : Equation) : Prop :=
  exists access,
    In access (Symbolics.search true (as_Expr expr))
    /\ In (EDim d) (indices_of access).

(** The equation carries a subdomain ordering that line 62 takes into
    account. *)
Definition has_ordering (expr : Equation) : bool :=
  match subdomain_indices expr with
  | Some s => truthy s
  | None => false
  end.

(** The index expression [a] makes [x] an offset of [d]: [a] is [d]
    itself and [x] is zero, or [d] is an argument of [a] and [x] an
    integer argument that is no Dimension. *)
Definition registers (a : Expr) (d : Dimension) (x : Expr) : Prop :=
  (a = EDim d /\ x = Stencil.zero)
  \/ (In (EDim d) (args a) /\ In x (args a)
      /\ isDimension x = false /\ is_integer x = true).

(** [a] comes before [b] in [out]. *)
Definition before (out : list Dimension) (a b : Dimension) : Prop :=
  exists i j, nth_error out i = Some a /\ nth_error out j = Some b /\ i < j.

(** [out] places the elements of [r] that differ one before the other,
    in the order of [r]. *)
Definition follows (out : list Dimension) (r : list Dimension) : Prop :=
  forall i j a b,
    i < j -> nth_error r i = Some a -> nth_error r j = Some b ->
    a <> b -> before out a b.

(** [out] places the elements of [r] one before the other, in the order
    of [r]. *)
Definition respects (out : list Dimension) (r : list Dimension) : Prop :=
  forall i j a b,
    i < j -> nth_error r i = Some a -> nth_error r j = Some b ->
    before out a b.

End Spec.

(** ** devito/stencil.py, with the sets as shared objects *)

(** [subtract], [frozen] and [__init__] hand the set objects themselves
    from one stencil to another, and [subtract] changes them in place;
    here a stencil maps each dimension to a reference into a store of set
    objects. *)
Module Heap.

(** A set object: a [frozenset] or a mutable [set], and its elements. *)
Record SetObject : Type :=
  mkSet { is_frozen : bool; elements : Stencil.Offsets }.

Definition Store : Type := list SetObject.
Definition Ref : Type := nat.

Definition deref (st : Store) (r : Ref) : SetObject :=
  nth r st (mkSet false []).

(** A new object takes the next place of the store. *)
Definition alloc (st : Store) (o : SetObject) : Store * Ref :=
  (st ++ [o], List.length st).

(** The object at [r] is changed in place. *)
Fixpoint write (st : Store) (r : Ref) (o : SetObject) : Store :=
  match st, r with
  | [], _ => []
  | _ :: st', 0 => o :: st'
  | x :: st', S r' => x :: write st' r' o
  end.

(** A stencil: its items in insertion order, each value a reference. *)
Definition t : Type := list (Dimension * Ref).

Fixpoint lookup (s : t) (k : Dimension) : option Ref :=
  match s with
  | [] => None
  | (k', v) :: s' => if Dimension_eqb k k' then Some v else lookup s' k
  end.

(** [__setitem__], lines 117-119. *)
Fixpoint setitem (s : t) (key : Dimension) (val : Ref) : t :=
  match s with
  | [] => [(key, val)]
  | (k', v) :: s' =>
      if Dimension_eqb key k' then (k', val) :: s'
      else (k', v) :: setitem s' key val
  end.

(** [s[k]]: a missing key is first stored with a new empty [set()]. *)
Definition getitem (st : Store) (s : t) (k : Dimension) : Store * t * Ref :=
  match lookup s k with
  | Some v => (st, s, v)
  | None =>
      let '(st', v) := alloc st (mkSet false []) in
      (st', setitem s k v, v)
  end.

(** The elements of [a] that are not in [b]. *)
Definition set_difference (a b : Stencil.Offsets) : Stencil.Offsets :=
  filter (fun x => negb (mem Expr_eqb x b)) a.

(** [x -= y]: a mutable set is changed in place and stays the value; a
    frozenset is left alone and a new frozenset is the value. *)
Definition isub (st : Store) (x y : Ref) : Store * Ref :=
  let d := set_difference (elements (deref st x)) (elements (deref st y)) in
  if is_frozen (deref st x) then alloc st (mkSet true d)
  else (write st x (mkSet false d), x).

(** One turn of the loop of [subtract], lines 107-110; [o[k]] is the
    value stored under [k], which [k in o] has found. *)
Definition subtract_step (o : t) (acc : Store * t) (kv : Dimension * Ref)
    : Store * t :=
  let '(st, output) := acc in
  let output := setitem output (fst kv) (snd kv) in
  match lookup o (fst kv) with
  | Some y =>
      let '(st, output, x) := getitem st output (fst kv) in
      let '(st, r) := isub st x y in
      (st, setitem output (fst kv) r)
  | None => (st, output)
  end.

(** [Stencil.subtract], lines 101-111. *)
Definition subtract (st : Store) (self o : t) : Store * t :=
  fold_left (subtract_step o) self (st, []).

(** What an argument of the constructor iterates over: a [StencilEntry],
    a 2-tuple, or anything else. *)
Inductive Item : Type :=
| Entry (dim : Dimension) (ofs : Ref)
| Pair (dim : Dimension) (ofs : Ref)
| Other.

(** An argument of the constructor: an equation, or an iterable. *)
Inductive Arg : Type :=
| OfEq (expr : Equation)
| OfItems (items : list Item).

(** Lines 41-48; [None] is the [RuntimeError]. *)
Fixpoint process_items (items : list Item) : option (list (Dimension * Ref)) :=
  match items with
  | [] => Some []
  | Entry dim ofs :: items' | Pair dim ofs :: items' =>
      match process_items items' with
      | Some processed => Some ((dim, ofs) :: processed)
      | None => None
      end
  | Other :: _ => None
  end.

(** The sets of a stencil just extracted are new objects. *)
Fixpoint store_all (st : Store) (s : Stencil.t) : Store * list (Dimension * Ref) :=
  match s with
  | [] => (st, [])
  | (k, v) :: s' =>
      let '(st1, r) := alloc st (mkSet false v) in
      let '(st2, items) := store_all st1 s' in
      (st2, (k, r) :: items)
  end.

(** Lines 36-48. *)
Fixpoint process (st : Store) (args : list Arg)
    : option (Store * list (Dimension * Ref)) :=
  match args with
  | [] => Some (st, [])
  | OfEq expr :: args' =>
      let '(st1, items) := store_all st (Stencil.extract expr) in
      match process st1 args' with
      | Some (st2, processed) => Some (st2, items ++ processed)
      | None => None
      end
  | OfItems items :: args' =>
      match process_items items with
      | Some processed1 =>
          match process st args' with
          | Some (st2, processed) => Some (st2, processed1 ++ processed)
          | None => None
          end
      | None => None
      end
  end.

(** The mapping built from pairs in order (line 49): a key met again
    keeps its place and takes the later value. *)
Definition of_pairs (processed : list (Dimension * Ref)) : t :=
  fold_left (fun s kv => setitem s (fst kv) (snd kv)) processed [].

(** The constructor [Stencil], lines 24-49; [None] is the [RuntimeError]. *)
Definition init (st : Store) (args : list Arg) : option (Store * t) :=
  match process st args with
  | Some (st', processed) => Some (st', of_pairs processed)
  | None => None
  end.

(** [frozenset(v)]: a frozenset is returned as it is, a mutable set is
    copied into a new frozenset. *)
Definition frozenset (st : Store) (v : Ref) : Store * Ref :=
  if is_frozen (deref st v) then (st, v)
  else alloc st (mkSet true (elements (deref st v))).

(** The list comprehension of line 91. *)
Fixpoint freeze_items (st : Store) (s : t) : Store * list Item :=
  match s with
  | [] => (st, [])
  | (k, v) :: s' =>
      let '(st1, r) := frozenset st v in
      let '(st2, items) := freeze_items st1 s' in
      (st2, Pair k r :: items)
  end.

(** How an item of [frozen] stands to the item it comes from: the same
    dimension, with the same set if that was frozen, else with a set
    that did not exist. *)
Definition frozen_of (st : Store) (kv kv' : Dimension * Ref) : Prop :=
  fst kv' = fst kv
  /\ (if is_frozen (deref st (snd kv)) then snd kv' = snd kv
      else List.length st <= snd kv').

(** [frozen], lines 89-91. *)
Definition frozen (st : Store) (s : t) : option (Store * t) :=
  let '(st', items) := freeze_items st s in
  init st' [OfItems items].

(** [empty], lines 93-95. *)
Definition empty (st : Store) (s : t) : bool :=
  forallb (fun kv => List.length (elements (deref st (snd kv))) =? 0) s.

(** [entries], lines 97-99. *)
Definition entries (s : t) : list Item :=
  map (fun kv => Entry (fst kv) (snd kv)) s.

(** The stencil as its sets stand in the store. *)
Definition read (st : Store) (s : t) : Stencil.t :=
  map (fun kv => (fst kv, elements (deref st (snd kv)))) s.

(** The loop of [subtract] key by key, as it runs on a receiver whose
    keys are distinct: each key takes the outcome of its own [-=], or
    its own set when [o] does not have the key. *)
Fixpoint subtract_run (st : Store) (items : list (Dimension * Ref)) (o : t)
    : Store * list (Dimension * Ref) :=
  match items with
  | [] => (st, [])
  | (k, v) :: rest =>
      let '(st1, r) :=
        match lookup o k with
        | Some y => isub st v y
        | None => (st, v)
        end in
      let '(st2, out) := subtract_run st1 rest o in
      (st2, (k, r) :: out)
  end.

(** The difference of two stencils by value: under each dimension of
    [a], what [a] stores less what [b] stores. *)
Definition difference (a b : Stencil.t) : Stencil.t :=
  map (fun kv => (fst kv, set_difference (snd kv) (Stencil.stored b (fst kv))))
      a.

(** Every set that the stencil refers to is in the store. *)
Definition valid (st : Store) (s : t) : Prop :=
  forall k r, In (k, r) s -> r < List.length st.

(** The sets of [self] are distinct objects, and none of them is what
    [o] stores under another key. *)
Definition separate (self o : t) : Prop :=
  NoDup (map snd self)
  /\ forall k r k' r',
       In (k, r) self -> lookup o k' = Some r' -> r = r' -> k = k'.

End Heap.

(** ** devito/builtins.py: the reduction context *)

Module Builtins.

(** What [MPIReduction] reads of a function: its grid, if it has one,
    and its dtype object.  Both go into Python sets; they are numbered
    here as a set tells them apart (by hash and [==]), so that two
    objects of one name that a set keeps apart, such as [numpy.float32]
    and [numpy.dtype('float32')], have two numbers. *)
Record DataFunction : Type :=
  mkData { grid : option nat; dtype : nat }.

(** The reduction operators that the builtins pass. *)
Inductive Op : Type := SUM | MIN | MAX.

(** The attributes that [__init__] sets; [v] is [None] until the
    context is left. *)
Record MPIReduction : Type :=
  mkReduction { r_grid : option nat; r_dtype : nat;
                r_v : option Z; r_op : Op }.

Definition grid_eqb (g h : option nat) : bool :=
  match g, h with
  | Some a, Some b => Nat.eqb a b
  | None, None => true
  | _, _ => false
  end.

(** [MPIReduction.__init__], lines 166-181. *)
Definition MPIReduction_init (functions : list DataFunction) (op : Op)
    : Result MPIReduction :=
  let grids := unique grid_eqb (map grid functions) in
  g <- match grids with
       | [] => Ok None
       | [g] => Ok g
       | _ :: _ :: _ => Raise ValueError
       end ;;
  let dtypes := unique Nat.eqb (map dtype functions) in
  match dtypes with
  | [d] => Ok (mkReduction g d None op)
  | _ => Raise ValueError
  end.

End Builtins.

(** ** Sample objects *)

Module Sample.

Definition time : Dimension := mkDimension "time" false None.
Definition n : Dimension := mkDimension "n" false None.
Definition x : Dimension := mkDimension "x" true None.
Definition y : Dimension := mkDimension "y" true None.

Definition f : Function := mkFunction "f" [x; y].
Definition g : Function := mkFunction "g" [x; y].
Definition u : Function := mkFunction "u" [time].
Definition v : Function := mkFunction "v" [time; y].
Definition a : Function := mkFunction "a" [x].
Definition b : Function := mkFunction "b" [x].
Definition c : Function := mkFunction "c" [x].

(** [u[time] = 0] on a subdomain whose ordering is [x]. *)
Definition buffered : Equation :=
  mkEq (EIndexed u [EDim time]) (EInteger 0) (Some (EDim x)).

(** [v[time, y] = 0] on a subdomain whose ordering is [x]. *)
Definition buffered_y : Equation :=
  mkEq (EIndexed v [EDim time; EDim y]) (EInteger 0) (Some (EDim x)).

(** [f[x, y] = g[y, x]] on a subdomain whose ordering is [n]. *)
Definition transposed : Equation :=
  mkEq (EIndexed f [EDim x; EDim y]) (EIndexed g [EDim y; EDim x])
       (Some (EDim n)).

(** [f[x, y] = g[x + 1, y - 2]]. *)
Definition shifted : Equation :=
  mkEq (EIndexed f [EDim x; EDim y])
       (EIndexed g [ENode HAdd [EInteger 1; EDim x];
                    ENode HAdd [EInteger (-2); EDim y]])
       None.

(** [a[b[c[x]]] = 0]. *)
Definition nested_twice : Equation :=
  mkEq (EIndexed a [EIndexed b [EIndexed c [EDim x]]]) (EInteger 0) None.

(** [s[time, xi] = 0], with [xi] derived from [x]. *)
Definition xi : Dimension := mkDimension "xi" true (Some x).
Definition s : Function := mkFunction "s" [time; x].
Definition derived : Equation :=
  mkEq (EIndexed s [EDim time; EDim xi]) (EInteger 0) None.

(** [w[x, time] = 0] on a subdomain whose ordering is [n]. *)
Definition w : Function := mkFunction "w" [x; time].
Definition reversed : Equation :=
  mkEq (EIndexed w [EDim x; EDim time]) (EInteger 0) (Some (EDim n)).

(** [f[x, x] = 0]. *)
Definition repeated : Equation :=
  mkEq (EIndexed f [EDim x; EDim x]) (EInteger 0) None.

(** [a[b[0] + x]]. *)
Definition indirect : Expr :=
  EIndexed a [ENode HAdd [EIndexed b [EInteger 0]; EDim x]].

End Sample.

(** * Properties *)

(** ** Equality tests decide equality *)

Lemma Dimension_eqb_refl : forall d, Dimension_eqb d d = true.
Proof.
  fix IH 1. intros [n s p]. simpl.
  rewrite String.eqb_refl, Bool.eqb_reflx. simpl.
  destruct p as [q|]; [apply IH | reflexivity].
Qed.

Lemma Dimension_eqb_eq : forall a b, Dimension_eqb a b = true <-> a = b.
Proof.
  intros a b. split; [| intros ->; apply Dimension_eqb_refl].
  revert a b. fix IH 1. intros [n1 s1 p1] [n2 s2 p2]. simpl. intro H.
  apply andb_prop in H. destruct H as [H Hp].
  apply andb_prop in H. destruct H as [Hn Hs].
  apply String.eqb_eq in Hn. apply Bool.eqb_prop in Hs. subst.
  destruct p1 as [q1|], p2 as [q2|]; try discriminate; [| reflexivity].
  apply IH in Hp. now subst.
Qed.

Lemma Dimension_eqb_neq : forall a b, Dimension_eqb a b = false <-> a <> b.
Proof.
  intros a b. destruct (Dimension_eqb a b) eqn:E.
  - apply Dimension_eqb_eq in E. split; [discriminate | congruence].
  - split; [| reflexivity]. intros _ H. apply Dimension_eqb_eq in H. congruence.
Qed.

Lemma Dimension_eq_dec : forall a b : Dimension, {a = b} + {a <> b}.
Proof.
  intros a b. destruct (Dimension_eqb a b) eqn:E.
  - left. now apply Dimension_eqb_eq.
  - right. now apply Dimension_eqb_neq.
Qed.

Lemma list_eqb_eq {A} (eqb : A -> A -> bool) :
  (forall a b, eqb a b = true <-> a = b) ->
  forall l m, list_eqb eqb l m = true <-> l = m.
Proof.
  intros H. induction l as [|x l IH]; intros [|y m]; simpl;
    try (split; [discriminate | discriminate]); [tauto |].
  rewrite andb_true_iff, H, IH. split; [intros [-> ->]; reflexivity |].
  intros E. injection E. auto.
Qed.

Lemma Function_eqb_eq : forall f g, Function_eqb f g = true <-> f = g.
Proof.
  intros [n1 l1] [n2 l2]. unfold Function_eqb. simpl.
  rewrite andb_true_iff, String.eqb_eq, (list_eqb_eq _ Dimension_eqb_eq).
  split; [intros [-> ->]; reflexivity |]. intros E. injection E. auto.
Qed.

Lemma Head_eqb_eq : forall h k, Head_eqb h k = true <-> h = k.
Proof.
  intros [| |i| |f i] [| |j| |g j]; simpl; try tauto;
    try (split; [discriminate | discriminate]).
  - rewrite Bool.eqb_true_iff. split; [intros ->; reflexivity |].
    intros E. injection E. auto.
  - rewrite andb_true_iff, String.eqb_eq, Bool.eqb_true_iff.
    split; [intros [-> ->]; reflexivity |]. intros E. injection E. auto.
Qed.

Lemma Expr_eqb_eq : forall a b, Expr_eqb a b = true <-> a = b.
Proof.
  fix IH 1.
  assert (IHl : forall l m,
    (fix go (l m : list Expr) : bool :=
       match l, m with
       | [], [] => true
       | x :: l', y :: m' => Expr_eqb x y && go l' m'
       | _, _ => false
       end) l m = true <-> l = m).
  { fix IHl 1. intros [|x l] [|y m];
      try (split; [discriminate | discriminate]); [tauto |].
    rewrite andb_true_iff, IH, IHl. split; [intros [-> ->]; reflexivity |].
    intros E. injection E. auto. }
  intros [d|n i|z|f|f l|h l] [d'|n' i'|z'|f'|f' l'|h' l']; simpl;
    try (split; [discriminate | discriminate]).
  - rewrite Dimension_eqb_eq. split; [intros ->; reflexivity |].
    intros E. injection E. auto.
  - rewrite andb_true_iff, String.eqb_eq, Bool.eqb_true_iff.
    split; [intros [-> ->]; reflexivity |]. intros E. injection E. auto.
  - rewrite Z.eqb_eq. split; [intros ->; reflexivity |].
    intros E. injection E. auto.
  - rewrite Function_eqb_eq. split; [intros ->; reflexivity |].
    intros E. injection E. auto.
  - rewrite andb_true_iff, Function_eqb_eq, IHl.
    split; [intros [-> ->]; reflexivity |]. intros E. injection E. auto.
  - rewrite andb_true_iff, Head_eqb_eq, IHl.
    split; [intros [-> ->]; reflexivity |]. intros E. injection E. auto.
Qed.

(** ** Sets kept as lists *)

Section Sets.
Context {A : Type} (eqb : A -> A -> bool).
Hypothesis eqb_eq : forall a b, eqb a b = true <-> a = b.

Lemma mem_In : forall x l, mem eqb x l = true <-> In x l.
Proof.
  intros x l. induction l as [|y l IH]; simpl.
  - split; [discriminate | tauto].
  - rewrite orb_true_iff, IH, eqb_eq. split; intros [H|H]; auto.
Qed.

Lemma mem_false : forall x l, mem eqb x l = false <-> ~ In x l.
Proof.
  intros x l. rewrite <- mem_In. destruct (mem eqb x l); split; congruence.
Qed.

Lemma In_unique_aux : forall l seen x,
  In x (unique_aux eqb seen l) <-> In x l /\ ~ In x seen.
Proof.
  induction l as [|y l IH]; intros seen x; simpl; [tauto |].
  destruct (mem eqb y seen) eqn:E.
  - apply mem_In in E. rewrite IH. split; [tauto |].
    intros [[->|H] Hn]; tauto.
  - apply mem_false in E. simpl. rewrite IH. simpl. split.
    + intros [->|[H Hn]]; [tauto |]. split; [tauto |]. tauto.
    + intros [[->|H] Hn]; [tauto |].
      destruct (eqb y x) eqn:Eyx; [apply eqb_eq in Eyx; tauto |].
      right. split; [assumption |]. intros [->|H']; [| tauto].
      assert (eqb x x = true) by now apply eqb_eq. congruence.
Qed.

Lemma In_unique : forall l x, In x (unique eqb l) <-> In x l.
Proof. intros l x. unfold unique. rewrite In_unique_aux. simpl. tauto. Qed.

Lemma NoDup_unique_aux : forall l seen, NoDup (unique_aux eqb seen l).
Proof.
  induction l as [|y l IH]; intros seen; simpl; [constructor |].
  destruct (mem eqb y seen); [apply IH |].
  constructor; [| apply IH]. rewrite In_unique_aux. simpl. tauto.
Qed.

Lemma NoDup_unique : forall l, NoDup (unique eqb l).
Proof. intros l. apply NoDup_unique_aux. Qed.

End Sets.

(** ** The classification of [order_relations] *)

Section Classification.
Import Algorithms Spec.

(** One turn of the loop, read through [kind_of]. *)
Lemma order_loop_step : forall i rest ns sp,
  order_loop (i :: rest) ns sp =
  (k <- kind_of i ;;
   match k with
   | Some true => order_loop rest ns (sp ++ [i])
   | Some false => order_loop rest (ns ++ [i]) sp
   | None => order_loop rest ns sp
   end).
Proof.
  intros i rest ns sp. destruct i as [d|n b|z|f|f l|h l]; simpl;
    try reflexivity.
  - destruct (is_Space d); reflexivity.
  - destruct (only_Dimensions l) as [|d0 [|d1 dim]]; simpl;
      try reflexivity; destruct (is_Space d0); reflexivity.
  - destruct l as [|a l]; [reflexivity |].
    destruct (only_Dimensions (a :: l)) as [|d0 [|d1 dim]]; simpl;
      try reflexivity; destruct (is_Space d0); reflexivity.
Qed.

(** Dimensions never stop the loop: they are split by kind. *)
Lemma order_loop_Dimensions : forall (r : Relation) rest ns sp,
  order_loop (map EDim r ++ rest) ns sp =
  order_loop rest (ns ++ map EDim (NonSpace_of r))
                  (sp ++ map EDim (Space_of r)).
Proof.
  induction r as [|d r IH]; intros rest ns sp.
  - simpl. now rewrite !app_nil_r.
  - change (map EDim (d :: r) ++ rest) with (EDim d :: (map EDim r ++ rest)).
    rewrite order_loop_step. simpl.
    destruct (is_Space d); simpl; rewrite IH, <- app_assoc; reflexivity.
Qed.

(** The combined tuple: the extraction, then [s]. *)
Lemma order_relations_combined : forall (r : Relation) s,
  order_relations (map EDim r ++ [s]) =
  (k <- kind_of s ;; Ok (combined r s k)).
Proof.
  intros r s. unfold order_relations.
  rewrite order_loop_Dimensions, order_loop_step. simpl.
  unfold combined.
  destruct (kind_of s) as [[[|]|]|e]; simpl;
    rewrite ?app_nil_r, <- ?app_assoc; reflexivity.
Qed.

Lemma kind_of_ValueError : forall s,
  kind_of s = Raise ValueError <-> 1 < List.length (only_Dimensions (args s)).
Proof.
  intros s. destruct s as [d|n b|z|f|f l|h l]; simpl;
    try (split; [discriminate | lia]).
  - destruct (only_Dimensions l) as [|d0 [|d1 dim]]; simpl;
      split; try discriminate; try lia; reflexivity.
  - destruct l as [|a l]; [simpl; split; [discriminate | lia] |].
    destruct (only_Dimensions (a :: l)) as [|d0 [|d1 dim]]; simpl;
      split; try discriminate; try lia; reflexivity.
Qed.

Lemma kind_of_IndexError : forall s,
  kind_of s = Raise IndexError <->
  args s <> [] /\ only_Dimensions (args s) = [].
Proof.
  assert (composite : forall l : list Expr, l <> [] ->
    match l with
    | [] => Ok None
    | _ :: _ =>
        match only_Dimensions l with
        | [] => Raise IndexError
        | [d0] => Ok (Some (is_Space d0))
        | _ :: _ :: _ => Raise ValueError
        end
    end = Raise IndexError <-> l <> [] /\ only_Dimensions l = []).
  { intros [|a l] Hl; [congruence |].
    destruct (only_Dimensions (a :: l)) as [|d0 [|d1 dim]];
      split; try discriminate; try (intros [_ H]; discriminate); auto. }
  intros s. destruct s as [d|n b|z|f|f l|h l];
    try (simpl; split; [discriminate | intros [H _]; congruence]).
  - apply (composite (EBase f :: l)). discriminate.
  - destruct l as [|a l];
      [simpl; split; [discriminate | intros [H _]; congruence] |].
    apply (composite (a :: l)). discriminate.
Qed.

End Classification.

(** ** The subdomain ordering (lines 58-63) *)

Section Subdomain.
Import Algorithms Spec.

Lemma yields_all_single : forall set_order (r : Relation),
  yields_all set_order -> set_order [r] = [r].
Proof.
  intros set_order r H. apply Permutation_length_1_inv.
  apply Permutation_sym, H.
Qed.

(** C1, as the code has it.  When the extracted set is the single
    relation [r] and the subdomain ordering [s] is classified with kind
    [k], the relation set becomes the single tuple: the NonSpace
    dimensions of [r] in their order, then [s] if its kind is NonSpace,
    then the Space dimensions of [r] in their order, then [s] if its
    kind is Space. *)
Theorem combined_relation :
  forall set_order expr r s k,
    yields_all set_order ->
    extracted expr = [r] ->
    subdomain_indices expr = Some s ->
    truthy s = true ->
    kind_of s = Ok k ->
    merge_subdomain (set_order (extracted expr)) (subdomain_indices expr)
    = Ok [combined r s k].
Proof.
  intros set_order expr r s k Hall Hr Hs Ht Hk.
  rewrite Hr, Hs, (yields_all_single _ _ Hall). simpl. rewrite Ht.
  rewrite order_relations_combined, Hk. reflexivity.
Qed.

(** The scenario of C1: extraction [(time,)] and ordering [x] give
    [(time, x)]. *)
Lemma combined_relation_witness :
  merge_subdomain ((fun l => l) (extracted Sample.buffered))
                  (subdomain_indices Sample.buffered)
  = Ok [[EDim Sample.time; EDim Sample.x]].
Proof.
  apply (combined_relation (fun l => l) Sample.buffered [Sample.time]
           (EDim Sample.x) (Some true)).
  - intro l. apply Permutation_refl.
  - reflexivity.
  - reflexivity.
  - reflexivity.
  - reflexivity.
Defined.

(** C1 as worded fails: with extraction [(time, y)] and the Space
    ordering [x], the code yields [(time, y, x)], not [(time, x, y)]. *)
Lemma combined_relation_counterexample :
  extracted Sample.buffered_y = [[Sample.time; Sample.y]]
  /\ merge_subdomain (extracted Sample.buffered_y)
                     (subdomain_indices Sample.buffered_y)
     <> Ok [combined_as_specified [Sample.time; Sample.y] (EDim Sample.x)].
Proof. split; [reflexivity |]. vm_compute. discriminate. Qed.

(** C5, as the code has it.  With a subdomain ordering [s], the
    classification raises [ValueError] exactly when some element of the
    combined tuple (the relation taken from the set, then [s]) has more
    than one Dimension among its arguments; how many relations the set
    holds plays no part. *)
Theorem multiple_dimensions_error :
  forall relations s,
    truthy s = true ->
    (merge_subdomain relations (Some s) = Raise ValueError
     <-> exists r i, hd_error relations = Some r
                     /\ In i (map EDim r ++ [s])
                     /\ 1 < List.length (only_Dimensions (args i))).
Proof.
  intros relations s Ht. simpl. rewrite Ht.
  destruct relations as [|r rest]; simpl.
  - split; [discriminate | intros (r & i & H & _); discriminate].
  - rewrite order_relations_combined. split.
    + intro H. exists r, s. split; [reflexivity |].
      split; [apply in_or_app; right; left; reflexivity |].
      apply kind_of_ValueError.
      destruct (kind_of s) as [k|[]]; simpl in H; congruence.
    + intros (r' & i & Hr & Hi & Hlen). injection Hr as <-.
      apply in_app_or in Hi. destruct Hi as [Hi|[<-|[]]].
      * apply in_map_iff in Hi. destruct Hi as (d & <- & _).
        simpl in Hlen. lia.
      * apply kind_of_ValueError in Hlen. rewrite Hlen. reflexivity.
Qed.

Lemma multiple_dimensions_error_witness :
  merge_subdomain [[Sample.time]]
    (Some (ENode HTuple [EDim Sample.x; EDim Sample.y])) = Raise ValueError
  <-> exists r i, hd_error [[Sample.time]] = Some r
        /\ In i (map EDim r ++ [ENode HTuple [EDim Sample.x; EDim Sample.y]])
        /\ 1 < List.length (only_Dimensions (args i)).
Proof.
  apply (multiple_dimensions_error [[Sample.time]]
           (ENode HTuple [EDim Sample.x; EDim Sample.y])).
  reflexivity.
Defined.

(** C5 as worded fails: two distinct relations survive for
    [f[x, y] = g[y, x]], and no error is raised. *)
Lemma multiple_dimensions_error_counterexample :
  ~ (merge_subdomain (extracted Sample.transposed)
                     (subdomain_indices Sample.transposed)
     = Raise ValueError
     <-> MultipleDimensions_as_specified (extracted Sample.transposed)
                                         (EDim Sample.n)).
Proof.
  intros [_ H].
  assert (E : merge_subdomain (extracted Sample.transposed)
                (subdomain_indices Sample.transposed) = Raise ValueError).
  { apply H. left. vm_compute. lia. }
  vm_compute in E. discriminate.
Qed.

(** C10.  If some element of the combined tuple has arguments but no
    Dimension among them, [order_relations] reads [dim[0]] of an empty
    list: [IndexError]. *)
Theorem order_relations_IndexError :
  forall (r : Relation) (s i : Expr),
    In i (map EDim r ++ [s]) ->
    args i <> [] ->
    only_Dimensions (args i) = [] ->
    order_relations (map EDim r ++ [s]) = Raise IndexError.
Proof.
  intros r s i Hi Hargs Hdim.
  apply in_app_or in Hi. destruct Hi as [Hi|[<-|[]]].
  - apply in_map_iff in Hi. destruct Hi as (d & <- & _).
    simpl in Hargs. congruence.
  - rewrite order_relations_combined.
    assert (E : kind_of s = Raise IndexError)
      by (apply kind_of_IndexError; auto).
    rewrite E. reflexivity.
Qed.

Lemma order_relations_IndexError_witness :
  order_relations
    (map EDim [Sample.time] ++ [ENode HTuple [EInteger 1; EInteger 2]])
  = Raise IndexError.
Proof.
  apply (order_relations_IndexError [Sample.time]
           (ENode HTuple [EInteger 1; EInteger 2])
           (ENode HTuple [EInteger 1; EInteger 2])).
  - right. left. reflexivity.
  - discriminate.
  - reflexivity.
Defined.

End Subdomain.

(** ** Stencils: lookup and extraction *)

Section StencilLookup.
Import Stencil.

Lemma lookup_None : forall s d,
  lookup s d = None <-> ~ In d (map fst s).
Proof.
  induction s as [|[k v] s IH]; intros d; simpl; [tauto |].
  destruct (Dimension_eqb d k) eqn:E.
  - apply Dimension_eqb_eq in E. subst k.
    split; [discriminate | intros H; exfalso; apply H; now left].
  - apply Dimension_eqb_neq in E. rewrite IH.
    split; [intros H [H1|H1]; [congruence | tauto] | tauto].
Qed.

Lemma lookup_In : forall s d v,
  lookup s d = Some v -> In d (map fst s).
Proof.
  intros s d v H. destruct (in_dec Dimension_eq_dec d (map fst s)) as [I|N];
    [assumption |].
  apply lookup_None in N. congruence.
Qed.

(** C9.  A dimension that the stencil does not hold is answered with
    the singleton of the zero offset. *)
Theorem get_absent :
  forall s d, ~ In d (map fst s) -> get s d None = [zero].
Proof.
  intros s d H. unfold get. apply lookup_None in H. rewrite H. reflexivity.
Qed.

(** Subscripting, by contrast, stores the key with the empty set and
    answers with it. *)
Lemma getitem_absent : forall s d,
  ~ In d (map fst s) -> getitem s d = ([], setitem s d []).
Proof.
  intros s d H. unfold getitem. apply lookup_None in H. now rewrite H.
Qed.

Lemma get_absent_witness :
  get [(Sample.x, [EInteger 1])] Sample.y None = [zero].
Proof.
  apply (get_absent [(Sample.x, [EInteger 1])] Sample.y).
  simpl. intros [H|[]]. discriminate.
Defined.

(** The effect of [s[k].update(l)] on what is stored. *)
Lemma lookup_setitem_same : forall s k v, lookup (setitem s k v) k = Some v.
Proof.
  induction s as [|[k' v'] s IH]; intros k v; simpl.
  - now rewrite Dimension_eqb_refl.
  - destruct (Dimension_eqb k k') eqn:E; simpl; rewrite E; auto.
Qed.

Lemma lookup_setitem_other : forall s k v d,
  d <> k -> lookup (setitem s k v) d = lookup s d.
Proof.
  induction s as [|[k' v'] s IH]; intros k v d Hd; simpl.
  - apply Dimension_eqb_neq in Hd. now rewrite Hd.
  - destruct (Dimension_eqb k k') eqn:E; simpl.
    + apply Dimension_eqb_eq in E. subst k'.
      apply Dimension_eqb_neq in Hd. now rewrite Hd.
    + destruct (Dimension_eqb d k'); auto.
Qed.

Lemma In_set_update : forall l cur x,
  In x (set_update cur l) <-> In x cur \/ In x l.
Proof.
  unfold set_update. induction l as [|y l IH]; intros cur x; simpl;
    [tauto |].
  rewrite IH. destruct (mem Expr_eqb y cur) eqn:E.
  - apply (mem_In _ Expr_eqb_eq) in E. intuition (subst; auto).
  - rewrite in_app_iff. simpl. intuition.
Qed.

Lemma lookup_update_at_same : forall s k l,
  lookup (update_at s k l) k = Some (set_update (stored s k) l).
Proof.
  intros s k l. unfold update_at, getitem, stored.
  destruct (lookup s k); apply lookup_setitem_same.
Qed.

Lemma lookup_update_at_other : forall s k l d,
  d <> k -> lookup (update_at s k l) d = lookup s d.
Proof.
  intros s k l d Hd. unfold update_at, getitem.
  destruct (lookup s k); rewrite ?lookup_setitem_other; auto.
Qed.

(** Updates only ever add offsets. *)
Lemma stored_update_at : forall s k l d x,
  In x (stored s d) -> In x (stored (update_at s k l) d).
Proof.
  intros s k l d x H. unfold stored at 1.
  destruct (Dimension_eq_dec d k) as [->|N].
  - rewrite lookup_update_at_same. apply In_set_update. now left.
  - rewrite lookup_update_at_other by assumption. exact H.
Qed.

Lemma stored_visit_index : forall a s d x,
  In x (stored s d) -> In x (stored (visit_index s a) d).
Proof.
  intros a s d x H. unfold visit_index.
  assert (H' : In x (stored match a with
                            | EDim x0 => update_at s x0 [zero]
                            | _ => s
                            end d))
    by (destruct a; auto using stored_update_at).
  destruct (scan_args (args a) None []) as [[d'|] off];
    auto using stored_update_at.
Qed.

Lemma stored_visit_indices : forall l s d x,
  In x (stored s d) -> In x (stored (fold_left visit_index l s) d).
Proof.
  induction l as [|a l IH]; intros s d x H; simpl; [assumption |].
  apply IH, stored_visit_index, H.
Qed.

Lemma visit_bare : forall s d, In zero (stored (visit_index s (EDim d)) d).
Proof.
  intros s d. unfold visit_index. simpl. unfold stored.
  rewrite lookup_update_at_same. apply In_set_update. right. now left.
Qed.

Lemma visit_indices_bare : forall l s d,
  In (EDim d) l -> In zero (stored (fold_left visit_index l s) d).
Proof.
  induction l as [|a l IH]; intros s d H; [destruct H |].
  simpl. destruct H as [->|H].
  - apply stored_visit_indices, visit_bare.
  - now apply IH.
Qed.

(** Every access that [extract] scans registers the zero offset of its
    bare dimensions. *)
Lemma extract_scanned : forall expr access d,
  In access (accesses expr) ->
  In (EDim d) (Algorithms.indices_of access) ->
  In zero (stored (extract expr) d).
Proof.
  intros expr access d Ha Hd. unfold extract.
  generalize empty_stencil as s. revert Ha.
  generalize (accesses expr) as l.
  induction l as [|e l IH]; intros Ha s; [destruct Ha |].
  simpl. destruct Ha as [->|Ha].
  - generalize (visit_indices_bare _ s d Hd).
    generalize (fold_left visit_index (Algorithms.indices_of access) s) as s'.
    clear. induction l as [|e l IH]; intros s' H; simpl; [assumption |].
    apply IH, stored_visit_indices, H.
  - now apply IH.
Qed.

(** C7 fails on the code.  In [a[b[c[x]]] = 0] the dimension [x] is the
    bare index of the access [c[x]], yet the stencil holds the empty set
    for it: [c[x]] stands two levels deep and is never scanned. *)
Theorem extract_misses_zero :
  Spec.appears_bare Sample.x Sample.nested_twice
  /\ lookup (extract Sample.nested_twice) Sample.x = Some []
  /\ get (extract Sample.nested_twice) Sample.x None = [].
Proof.
  split; [| split; reflexivity].
  exists (EIndexed Sample.c [EDim Sample.x]). split.
  - simpl. now left.
  - simpl. now left.
Qed.

End StencilLookup.

(** ** Stencils: union *)

Section StencilUnion.
Import Stencil.

Lemma set_eqb_iff : forall v w,
  set_eqb v w = true <-> (forall x, In x v <-> In x w).
Proof.
  intros v w. unfold set_eqb.
  rewrite andb_true_iff, !forallb_forall. split.
  - intros [H1 H2] x. split; intro H.
    + apply (mem_In _ Expr_eqb_eq), H1, H.
    + apply (mem_In _ Expr_eqb_eq), H2, H.
  - intros H. split; intros x Hx; apply (mem_In _ Expr_eqb_eq), H, Hx.
Qed.

(** *** Key order *)

Lemma keys_setitem : forall s k v,
  keys (setitem s k v) = add_key (keys s) k.
Proof.
  unfold add_key, keys.
  induction s as [|[k' v'] s IH]; intros k v; simpl; [reflexivity |].
  destruct (Dimension_eqb k k') eqn:E; simpl; [reflexivity |].
  rewrite IH. destruct (mem Dimension_eqb k (map fst s)); reflexivity.
Qed.

Lemma add_key_present : forall ks k, In k ks -> add_key ks k = ks.
Proof.
  intros ks k H. unfold add_key.
  apply (mem_In _ Dimension_eqb_eq) in H. now rewrite H.
Qed.

Lemma In_add_key : forall ks k d, In d (add_key ks k) <-> In d ks \/ d = k.
Proof.
  intros ks k d. unfold add_key. destruct (mem Dimension_eqb k ks) eqn:E.
  - apply (mem_In _ Dimension_eqb_eq) in E. intuition (subst; auto).
  - rewrite in_app_iff. simpl. intuition.
Qed.

Lemma keys_update_at : forall s k l,
  keys (update_at s k l) = add_key (keys s) k.
Proof.
  intros s k l. unfold update_at, getitem.
  destruct (lookup s k) eqn:E; rewrite !keys_setitem; [reflexivity |].
  apply add_key_present, In_add_key. now right.
Qed.

Lemma keys_merge : forall i output,
  keys (merge output i) = fold_left add_key (keys i) (keys output).
Proof.
  unfold merge. induction i as [|[k v] i IH]; intros output; simpl;
    [reflexivity |].
  now rewrite IH, keys_update_at.
Qed.

Lemma In_fold_add_key : forall l acc d,
  In d (fold_left add_key l acc) <-> In d acc \/ In d l.
Proof.
  induction l as [|k l IH]; intros acc d; simpl; [tauto |].
  rewrite IH, In_add_key. intuition.
Qed.

Lemma NoDup_add_key : forall ks k, NoDup ks -> NoDup (add_key ks k).
Proof.
  intros ks k H. unfold add_key. destruct (mem Dimension_eqb k ks) eqn:E;
    [assumption |].
  apply (mem_false _ Dimension_eqb_eq) in E.
  apply NoDup_app; [assumption | repeat constructor; auto |].
  intros d Hd [<-|[]]. tauto.
Qed.

Lemma NoDup_fold_add_key : forall l acc,
  NoDup acc -> NoDup (fold_left add_key l acc).
Proof.
  induction l as [|k l IH]; intros acc H; simpl; [assumption |].
  apply IH, NoDup_add_key, H.
Qed.

(** Merging what was merged is merging in turn. *)
Lemma fold_add_key_fold : forall l X Y,
  fold_left add_key (fold_left add_key l Y) X
  = fold_left add_key l (fold_left add_key Y X).
Proof.
  induction l as [|z l IH] using rev_ind; intros X Y; [reflexivity |].
  rewrite !fold_left_app. simpl. rewrite <- IH.
  set (W := fold_left add_key l Y).
  unfold add_key at 2. destruct (mem Dimension_eqb z W) eqn:E.
  - apply (mem_In _ Dimension_eqb_eq) in E.
    symmetry. apply add_key_present, In_fold_add_key. now right.
  - now rewrite fold_left_app.
Qed.

Lemma keys_union2 : forall A B,
  keys (union [A; B]) = fold_left add_key (keys A ++ keys B) [].
Proof.
  intros A B. unfold union. simpl. fold (merge empty_stencil A).
  fold (merge (merge empty_stencil A) B).
  now rewrite !keys_merge, fold_left_app.
Qed.

Lemma NoDup_keys_union2 : forall A B, NoDup (keys (union [A; B])).
Proof.
  intros A B. rewrite keys_union2. apply NoDup_fold_add_key. constructor.
Qed.

Lemma In_keys_union2 : forall A B d,
  In d (keys (union [A; B])) <-> In d (keys A) \/ In d (keys B).
Proof.
  intros A B d. rewrite keys_union2, In_fold_add_key, in_app_iff.
  simpl. tauto.
Qed.

Lemma keys_union_assoc : forall A B C,
  keys (union [union [A; B]; C]) = keys (union [A; union [B; C]]).
Proof.
  intros A B C.
  rewrite (keys_union2 (union [A; B]) C), (keys_union2 A (union [B; C])).
  rewrite !fold_left_app, (keys_union2 A B), (keys_union2 B C).
  rewrite !fold_add_key_fold. simpl. now rewrite !fold_left_app.
Qed.

(** *** Stored offsets *)

Lemma In_stored_update_at : forall s k l d x,
  In x (stored (update_at s k l) d)
  <-> In x (stored s d) \/ (d = k /\ In x l).
Proof.
  intros s k l d x. unfold stored at 1.
  destruct (Dimension_eq_dec d k) as [->|N].
  - rewrite lookup_update_at_same, In_set_update. tauto.
  - rewrite lookup_update_at_other by assumption. fold (stored s d). tauto.
Qed.

Lemma In_stored_merge : forall i output d x,
  In x (stored (merge output i) d)
  <-> In x (stored output d) \/ holds i d x.
Proof.
  unfold merge, holds. induction i as [|[k v] i IH]; intros output d x; simpl.
  - split; [auto | intros [H|(v & [] & _)]; exact H].
  - rewrite IH, In_stored_update_at. split.
    + intros [[H|[-> H]]|(w & H1 & H2)]; eauto.
    + intros [H|(w & [E|H1] & H2)]; eauto.
      injection E as <- <-. auto.
Qed.

Lemma lookup_Some_In : forall s d v, lookup s d = Some v -> In (d, v) s.
Proof.
  induction s as [|[k w] s IH]; intros d v; simpl; [discriminate |].
  destruct (Dimension_eqb d k) eqn:E.
  - apply Dimension_eqb_eq in E. subst k. intro H. injection H as <-.
    now left.
  - intro H. right. now apply IH.
Qed.

Lemma In_lookup : forall s d v,
  NoDup (keys s) -> In (d, v) s -> lookup s d = Some v.
Proof.
  unfold keys. induction s as [|[k w] s IH]; intros d v Hnd H; [destruct H |].
  simpl in Hnd. apply NoDup_cons_iff in Hnd. destruct Hnd as [Hk Hnd].
  simpl. destruct H as [E|H].
  - injection E as <- <-. now rewrite Dimension_eqb_refl.
  - destruct (Dimension_eqb d k) eqn:E.
    + apply Dimension_eqb_eq in E. subst k. exfalso. apply Hk.
      apply in_map_iff. now exists (d, v).
    + now apply IH.
Qed.

Lemma holds_stored : forall s d x,
  NoDup (keys s) -> (holds s d x <-> In x (stored s d)).
Proof.
  intros s d x Hnd. unfold holds, stored. split.
  - intros (v & H1 & H2). now rewrite (In_lookup _ _ _ Hnd H1).
  - destruct (lookup s d) as [v|] eqn:E; [| intros []].
    intro H. exists v. split; [now apply lookup_Some_In | exact H].
Qed.

Lemma In_stored_union2 : forall A B d x,
  In x (stored (union [A; B]) d) <-> holds A d x \/ holds B d x.
Proof.
  intros A B d x. unfold union. simpl. fold (merge empty_stencil A).
  fold (merge (merge empty_stencil A) B).
  rewrite !In_stored_merge. unfold stored at 1. simpl. tauto.
Qed.

Lemma holds_union2 : forall A B d x,
  holds (union [A; B]) d x <-> holds A d x \/ holds B d x.
Proof.
  intros A B d x.
  rewrite (holds_stored _ _ _ (NoDup_keys_union2 A B)).
  apply In_stored_union2.
Qed.

(** *** Equality of ordered mappings *)

Lemma eqb_intro : forall s u,
  keys s = keys u ->
  NoDup (keys s) ->
  (forall d x, In x (stored s d) <-> In x (stored u d)) ->
  eqb s u = true.
Proof.
  unfold keys, stored.
  induction s as [|[k v] s IH]; intros [|[k' v'] u] Hk Hnd H;
    try discriminate; [reflexivity |].
  simpl in Hk. injection Hk as <- Hk.
  simpl in Hnd. apply NoDup_cons_iff in Hnd. destruct Hnd as [Hn Hnd].
  simpl. rewrite Dimension_eqb_refl. simpl. apply andb_true_iff. split.
  - apply set_eqb_iff. intro x. specialize (H k x). simpl in H.
    now rewrite Dimension_eqb_refl in H.
  - apply IH; [assumption | assumption |].
    intros d x. specialize (H d x). simpl in H.
    destruct (Dimension_eqb d k) eqn:E; [| exact H].
    apply Dimension_eqb_eq in E. subst d.
    assert (E1 : lookup s k = None) by now apply lookup_None.
    assert (E2 : lookup u k = None)
      by (apply lookup_None; unfold keys in *; now rewrite <- Hk).
    rewrite E1, E2. tauto.
Qed.

Lemma lookup_present : forall s d,
  In d (keys s) -> exists v, lookup s d = Some v.
Proof.
  intros s d H. destruct (lookup s d) as [v|] eqn:E; [now exists v |].
  apply lookup_None in E. contradiction.
Qed.

(** C8, as the code has it.  [union] is associative under the equality
    of ordered mappings, and [union(A, B)] and [union(B, A)] store equal
    sets under every dimension, though not always in the same order of
    dimensions. *)
Theorem union_associative_and_commutative_up_to_order :
  forall A B C,
    eqb (union [union [A; B]; C]) (union [A; union [B; C]]) = true
    /\ (forall d, option_eqb (lookup (union [A; B]) d)
                             (lookup (union [B; A]) d) = true).
Proof.
  intros A B C. split.
  - apply eqb_intro.
    + apply keys_union_assoc.
    + apply NoDup_keys_union2.
    + intros d x. rewrite !In_stored_union2, !holds_union2. tauto.
  - intro d. unfold option_eqb.
    destruct (lookup (union [A; B]) d) as [v|] eqn:E1;
      destruct (lookup (union [B; A]) d) as [w|] eqn:E2.
    + apply set_eqb_iff. intro x.
      generalize (In_stored_union2 A B d x), (In_stored_union2 B A d x).
      unfold stored. rewrite E1, E2. tauto.
    + apply lookup_In, In_keys_union2 in E1. apply lookup_None in E2.
      exfalso. apply E2. apply In_keys_union2. tauto.
    + apply lookup_In, In_keys_union2 in E2. apply lookup_None in E1.
      exfalso. apply E1. apply In_keys_union2. tauto.
    + reflexivity.
Qed.

(** C8 as worded fails: the union of [{x: {0}}] and [{y: {0}}] lists
    [x] first one way round and [y] first the other. *)
Lemma union_commutative_counterexample :
  eqb (union [[(Sample.x, [zero])]; [(Sample.y, [zero])]])
      (union [[(Sample.y, [zero])]; [(Sample.x, [zero])]]) = false.
Proof. reflexivity. Qed.

End StencilUnion.

(** ** The Relation Extractor *)

Lemma Expr_ind' (P : Expr -> Prop) :
  (forall d, P (EDim d)) ->
  (forall n i, P (ESymbol n i)) ->
  (forall z, P (EInteger z)) ->
  (forall f, P (EBase f)) ->
  (forall f l, Forall P l -> P (EIndexed f l)) ->
  (forall h l, Forall P l -> P (ENode h l)) ->
  forall e, P e.
Proof.
  intros HD HS HZ HB HI HN. fix IH 1. intros [d|n i|z|f|f l|h l].
  - apply HD.
  - apply HS.
  - apply HZ.
  - apply HB.
  - apply HI. induction l as [|x l IHl]; constructor; [apply IH | apply IHl].
  - apply HN. induction l as [|x l IHl]; constructor; [apply IH | apply IHl].
Qed.

Section Extractor.
Import Tools Symbolics Algorithms Spec.

Lemma depth_In : forall (l : list Expr) i,
  In i l -> depth i <= fold_right (fun x n => Nat.max (depth x) n) 0 l.
Proof.
  induction l as [|x l IH]; intros i H; [destruct H |].
  simpl. destruct H as [->|H]; [lia |]. apply IH in H. lia.
Qed.

Lemma depth_index : forall a i, In i (indices_of a) -> depth i < depth a.
Proof.
  intros [d|n b|z|f|f l|h l] i H; simpl in H; try destruct H.
  simpl. apply depth_In in H. lia.
Qed.

(** What the search finds lies no deeper than where it looks. *)
Lemma depth_search : forall deep e n,
  In n (search deep e) -> depth n <= depth e.
Proof.
  intros deep e. induction e as [d|m b|z|f|f l IH|h l IH] using Expr_ind';
    intros n H; simpl in H; try destruct H.
  - apply in_app_or in H. destruct H as [H|[<-|[]]]; [| lia].
    destruct deep; [| destruct H].
    apply in_flat_map in H. destruct H as (x & Hx & Hn).
    rewrite Forall_forall in IH. apply (IH x Hx) in Hn.
    apply depth_In in Hx. simpl. lia.
  - apply in_flat_map in H. destruct H as (x & Hx & Hn).
    rewrite Forall_forall in IH. apply (IH x Hx) in Hn.
    apply depth_In in Hx. simpl. lia.
Qed.

Lemma depth_retrieve_indexed : forall mode deep e n,
  In n (retrieve_indexed mode deep e) -> depth n <= depth e.
Proof.
  intros [|] deep e n H; simpl in H.
  - rewrite (In_unique _ Expr_eqb_eq) in H. now apply depth_search in H.
  - now apply depth_search in H.
Qed.

Lemma flat_map_ext_In {A B} (f g : A -> list B) l :
  (forall x, In x l -> f x = g x) -> flat_map f l = flat_map g l.
Proof.
  induction l as [|x l IH]; intro H; simpl; [reflexivity |].
  rewrite H by now left. rewrite IH; [reflexivity |].
  intros y Hy. apply H. now right.
Qed.

(** Any bound above the depth of the access gives the same relation. *)
Lemma handle_indexed_at_stable : forall fuel1 fuel2 a,
  depth a < fuel1 -> depth a < fuel2 ->
  handle_indexed_at fuel1 a = handle_indexed_at fuel2 a.
Proof.
  induction fuel1 as [|fuel1 IH]; intros fuel2 a H1 H2; [lia |].
  destruct fuel2 as [|fuel2]; [lia |]. cbn [handle_indexed_at].
  apply flat_map_ext_In. intros i Hi. apply depth_index in Hi.
  destruct (split_affine i); [reflexivity |].
  assert (E : map (handle_indexed_at fuel1) (retrieve_indexed ModeUnique false i)
              = map (handle_indexed_at fuel2) (retrieve_indexed ModeUnique false i)).
  { apply map_ext_in. intros n Hn. apply depth_retrieve_indexed in Hn.
    apply IH; lia. }
  rewrite E. reflexivity.
Qed.

(** C6, as the code has it.  The relation of an access is made of the
    shares of its index expressions, in order: the dimension of an
    expression that decomposes; otherwise the dimensions extracted from
    the nested accesses, when there is any; otherwise the dimensions
    among the free symbols, sorted by name. *)
Theorem handle_indexed_steps :
  forall f indices,
    handle_indexed (EIndexed f indices) = flat_map index_relation indices.
Proof.
  intros f indices. unfold handle_indexed.
  change (handle_indexed_at (S (depth (EIndexed f indices))) (EIndexed f indices))
    with (flat_map
            (fun i =>
               match split_affine i with
               | Some af => match var af with EDim d => [d] | _ => [] end
               | None =>
                   let nested :=
                     flatten (map (handle_indexed_at (depth (EIndexed f indices)))
                                  (retrieve_indexed ModeUnique false i)) in
                   match nested with
                   | _ :: _ => nested
                   | [] => only_Dimensions
                             (filter_sorted Expr_eqb name_of (free_symbols i))
                   end
               end) indices).
  apply flat_map_ext_In. intros i Hi. unfold index_relation.
  destruct (split_affine i); [reflexivity |].
  assert (E : map (handle_indexed_at (depth (EIndexed f indices)))
                  (retrieve_indexed ModeUnique false i)
              = map handle_indexed (retrieve_indexed ModeUnique false i)).
  { apply map_ext_in. intros n Hn. apply depth_retrieve_indexed in Hn.
    assert (Hd : depth i < depth (EIndexed f indices))
      by (apply depth_index; exact Hi).
    unfold handle_indexed. apply handle_indexed_at_stable; lia. }
  rewrite E. reflexivity.
Qed.

(** C6 as worded fails: in [a[b[0] + x]] a nested access is found, it
    yields no dimension, and the code then takes [x] from the free
    symbols. *)
Lemma handle_indexed_counterexample :
  retrieve_indexed ModeUnique false
    (ENode HAdd [EIndexed Sample.b [EInteger 0]; EDim Sample.x])
  = [EIndexed Sample.b [EInteger 0]]
  /\ handle_indexed Sample.indirect = [Sample.x]
  /\ extract_as_specified Sample.indirect = []
  /\ handle_indexed Sample.indirect <> extract_as_specified Sample.indirect.
Proof. repeat split; try reflexivity. discriminate. Qed.

End Extractor.

(** ** What reaches the resolver *)

Section ResolverInput.
Import Tools Symbolics Algorithms Spec.

Lemma In_insert_by {A} (key : A -> string) : forall l x y,
  In x (insert_by key y l) <-> x = y \/ In x l.
Proof.
  induction l as [|z l IH]; intros x y; simpl; [intuition |].
  destruct (String.leb (key y) (key z)); simpl; [intuition |].
  rewrite IH. intuition.
Qed.

Lemma In_sort_by {A} (key : A -> string) : forall l x,
  In x (sort_by key l) <-> In x l.
Proof.
  induction l as [|y l IH]; intros x; simpl; [tauto |].
  rewrite In_insert_by, IH. intuition.
Qed.

Lemma In_filter_sorted {A} (eqb : A -> A -> bool) (key : A -> string) :
  (forall a b, eqb a b = true <-> a = b) ->
  forall l x, In x (filter_sorted eqb key l) <-> In x l.
Proof.
  intros H l x. unfold filter_sorted. now rewrite In_sort_by, In_unique.
Qed.

Lemma In_only_Dimensions : forall l d,
  In d (only_Dimensions l) <-> In (EDim d) l.
Proof.
  induction l as [|e l IH]; intros d; simpl; [tauto |].
  destruct e; simpl; rewrite IH; split; intros H;
    try (now right); try (destruct H as [H|H]; [discriminate | exact H]).
  - destruct H as [->|H]; auto.
  - destruct H as [H|H]; [injection H as ->; now left | now right].
Qed.

(** The symbols of what the search finds are symbols of where it
    looks. *)
Lemma symbols_search : forall deep e n x,
  In n (search deep e) -> In x (symbols n) -> In x (symbols e).
Proof.
  intros deep e. induction e as [d|m b|z|f|f l IH|h l IH] using Expr_ind';
    intros n x H Hx; simpl in H; try destruct H.
  - apply in_app_or in H. destruct H as [H|[<-|[]]]; [| exact Hx].
    destruct deep; [| destruct H].
    apply in_flat_map in H. destruct H as (i & Hi & Hn).
    rewrite Forall_forall in IH. simpl. right.
    apply in_flat_map. exists i. split; [exact Hi |].
    now apply (IH i Hi n).
  - apply in_flat_map in H. destruct H as (i & Hi & Hn).
    rewrite Forall_forall in IH. simpl.
    apply in_flat_map. exists i. split; [exact Hi |].
    now apply (IH i Hi n).
Qed.

Lemma symbols_index : forall a i x,
  In i (indices_of a) -> In x (symbols i) -> In x (symbols a).
Proof.
  intros [d|n b|z|f|f l|h l] i x H Hx; simpl in H; try destruct H.
  simpl. right. apply in_flat_map. now exists i.
Qed.

Lemma split_affine_var : forall i af d,
  split_affine i = Some af -> var af = EDim d -> In (EDim d) (symbols i).
Proof.
  intros i af d H Hv. destruct i as [d'|n b|z|f|f l|h l]; try discriminate.
  - injection H as <-. simpl in Hv. injection Hv as ->. now left.
  - destruct h; try discriminate.
    destruct l as [|[d1|n1 b1|z1|f1|f1 l1|h1 l1] [|[d2|n2 b2|z2|f2|f2 l2|h2 l2] [|]]];
      try discriminate; injection H as <-; simpl in Hv; injection Hv as ->;
      simpl; auto.
Qed.

(** Every dimension of a relation is a symbol of its access. *)
Lemma handle_indexed_at_symbols : forall fuel a d,
  In d (handle_indexed_at fuel a) -> In (EDim d) (symbols a).
Proof.
  induction fuel as [|fuel IH]; intros a d H; [destruct H |].
  cbn [handle_indexed_at] in H. apply in_flat_map in H.
  destruct H as (i & Hi & H). apply (symbols_index a i); [exact Hi |].
  destruct (split_affine i) as [af|] eqn:E.
  - destruct (var af) as [d'| | | | |] eqn:Ev; try (now destruct H).
    destruct H as [->|[]]. now apply (split_affine_var i af).
  - set (nested := flatten (map (handle_indexed_at fuel)
                                (retrieve_indexed ModeUnique false i))) in H.
    assert (Hn : In d nested -> In (EDim d) (symbols i)).
    { unfold nested, flatten. intro Hd. apply in_concat in Hd.
      destruct Hd as (r & Hr & Hd). apply in_map_iff in Hr.
      destruct Hr as (n & <- & Hn). simpl in Hn.
      rewrite (In_unique _ Expr_eqb_eq) in Hn.
      apply (symbols_search false i n); [exact Hn |]. now apply IH. }
    destruct nested as [|d0 nested'] eqn:En; [| now apply Hn].
    apply In_only_Dimensions in H.
    rewrite (In_filter_sorted _ _ Expr_eqb_eq) in H.
    unfold free_symbols in H. now rewrite (In_unique _ Expr_eqb_eq) in H.
Qed.

Lemma In_extra_of : forall expr d,
  In d (extra_of expr) <->
  In (EDim d) (symbols (as_Expr expr))
  \/ exists access, In access (search true (as_Expr expr))
                    /\ In d (function_indices access).
Proof.
  intros expr d. unfold extra_of.
  rewrite (In_filter_sorted _ _ Dimension_eqb_eq).
  rewrite (In_unique _ Dimension_eqb_eq), in_app_iff, In_only_Dimensions.
  unfold free_symbols. rewrite (In_unique _ Expr_eqb_eq), in_flat_map.
  split; intros [H|(a & Ha & Hd)]; auto; right; exists a;
    (split; [| exact Hd]); simpl in *.
  - now rewrite (In_unique _ Expr_eqb_eq) in Ha.
  - now rewrite (In_unique _ Expr_eqb_eq).
Qed.

(** The extra set covers the dimensions of every extracted relation. *)
Lemma extracted_in_extra : forall expr r d,
  In r (extracted expr) -> In d r -> In d (extra_of expr).
Proof.
  intros expr r d Hr Hd. apply In_extra_of. left.
  unfold extracted in Hr.
  rewrite (In_unique _ (list_eqb_eq _ Dimension_eqb_eq)) in Hr.
  apply in_map_iff in Hr. destruct Hr as (a & <- & Ha). simpl in Ha.
  apply (symbols_search false _ a); [exact Ha |].
  now apply (handle_indexed_at_symbols (S (depth a))).
Qed.

End ResolverInput.

Section ImplicitRelations.
Import Tools Symbolics Algorithms Spec.

Lemma resolver_input_Ok : forall set_order expr extra relations,
  resolver_input set_order expr = Ok (extra, relations) ->
  exists merged rels,
    merge_subdomain (set_order (extracted expr)) (subdomain_indices expr)
    = Ok merged
    /\ mapM (mapM as_Dimension) merged = Ok rels
    /\ extra = extra_of expr
    /\ relations =
       unique Relation_eqb
         (rels ++ unique Relation_eqb
                    (unique Relation_eqb (parent_relations (extra_of expr))
                     ++ map (map root) rels)).
Proof.
  intros set_order expr extra relations H. unfold resolver_input in H.
  destruct (merge_subdomain _ _) as [merged|e] eqn:E1; [| discriminate].
  simpl in H.
  destruct (mapM (mapM as_Dimension) merged) as [rels|e] eqn:E2;
    [| discriminate].
  simpl in H. injection H as <- <-. now exists merged, rels.
Qed.

Lemma In_parent_relations : forall extra d p,
  In d extra -> parent d = Some p -> In [p; d] (parent_relations extra).
Proof.
  intros extra d p Hd Hp. unfold parent_relations. apply in_flat_map.
  exists d. split; [exact Hd |]. rewrite Hp. now left.
Qed.

Lemma Relation_eqb_eq : forall r r' : Relation,
  Relation_eqb r r' = true <-> r = r'.
Proof. exact (list_eqb_eq Dimension_eqb Dimension_eqb_eq). Qed.

(** C4.  Whenever the resolver is reached, the relation set it is given
    holds [(parent(d), d)] for every derived dimension [d] of the extra
    set or of an extracted relation. *)
Theorem parent_relation_passed :
  forall set_order expr extra relations d p,
    resolver_input set_order expr = Ok (extra, relations) ->
    parent d = Some p ->
    In d extra \/ (exists r, In r (extracted expr) /\ In d r) ->
    In [p; d] relations.
Proof.
  intros set_order expr extra relations d p H Hp Hd.
  apply resolver_input_Ok in H.
  destruct H as (merged & rels & _ & _ & -> & ->).
  assert (Hextra : In d (extra_of expr)).
  { destruct Hd as [Hd|(r & Hr & Hd)]; [exact Hd |].
    now apply (extracted_in_extra expr r). }
  rewrite (In_unique _ Relation_eqb_eq). apply in_or_app. right.
  rewrite (In_unique _ Relation_eqb_eq). apply in_or_app. left.
  rewrite (In_unique _ Relation_eqb_eq).
  now apply In_parent_relations.
Qed.

End ImplicitRelations.

Section ImplicitRelationsWitness.
Import Algorithms Sample.

Lemma parent_relation_passed_witness :
  In [x; xi] [[time; xi]; [x; xi]; [time; x]].
Proof.
  apply (parent_relation_passed (fun l => l) derived
           [time; x; xi] [[time; xi]; [x; xi]; [time; x]] xi x).
  - reflexivity.
  - reflexivity.
  - left. right. right. left. reflexivity.
Defined.

End ImplicitRelationsWitness.

(** ** The resolver orders as the relations demand *)

Section ResolverSound.
Import Resolver Spec.

Lemma before_cons : forall out v a b,
  before out a b -> before (v :: out) a b.
Proof.
  intros out v a b (i & j & Hi & Hj & Hlt).
  exists (S i), (S j). simpl. repeat split; auto. lia.
Qed.

Lemma before_head : forall out v b, In b out -> before (v :: out) v b.
Proof.
  intros out v b H. apply In_nth_error in H. destruct H as (j & Hj).
  exists 0, (S j). simpl. repeat split; auto. lia.
Qed.

Lemma before_trans : forall out a b c,
  NoDup out -> before out a b -> before out b c -> before out a c.
Proof.
  intros out a b c Hnd (i & j & Hi & Hj & Hij) (j' & k & Hj' & Hk & Hjk).
  assert (E : j = j').
  { apply (proj1 (NoDup_nth_error out) Hnd).
    - apply nth_error_Some. congruence.
    - congruence. }
  subst j'. exists i, k. repeat split; auto. lia.
Qed.

Lemma In_remove : forall v l x, In x (remove v l) <-> In x l /\ x <> v.
Proof.
  intros v l x. unfold remove. rewrite filter_In, negb_true_iff.
  now rewrite Dimension_eqb_neq.
Qed.

Lemma NoDup_remove : forall v l, NoDup l -> NoDup (remove v l).
Proof. intros v l H. now apply NoDup_filter. Qed.

(** A free vertex has no predecessor left to place. *)
Lemma free_true : forall es remaining v a,
  free es remaining v = true -> In (a, v) es -> ~ In a remaining.
Proof.
  intros es remaining v a H He Ha. unfold free in H.
  apply negb_true_iff in H.
  assert (T : existsb (fun e => Dimension_eqb (snd e) v
                                && mem Dimension_eqb (fst e) remaining) es
              = true).
  { apply existsb_exists. exists (a, v). split; [exact He |]. simpl.
    rewrite Dimension_eqb_refl. simpl.
    now apply (mem_In _ Dimension_eqb_eq). }
  congruence.
Qed.

(** The placement lists what was to be placed, each once, and never
    puts the head of an edge before its tail. *)
Lemma place_sound : forall steps es remaining out,
  NoDup remaining ->
  place steps es remaining = Ok out ->
  NoDup out
  /\ (forall x, In x out <-> In x remaining)
  /\ (forall a b, In (a, b) es -> In a remaining -> In b remaining ->
                  before out a b).
Proof.
  induction steps as [|steps IH]; intros es remaining out Hnd H.
  - destruct remaining; [| discriminate]. injection H as <-.
    split; [constructor |]. split; [tauto |]. intros a b _ [].
  - destruct remaining as [|x0 rem']; [injection H as <-;
      split; [constructor |]; split; [tauto |]; intros a b _ [] |].
    set (remaining := x0 :: rem') in *.
    cbn [place] in H. fold remaining in H.
    destruct (find (free es remaining) remaining) as [v|] eqn:Ef;
      [| discriminate].
    apply find_some in Ef. destruct Ef as [Hv Hfree].
    destruct (place steps es (remove v remaining)) as [rest|e] eqn:Ep;
      [| discriminate].
    simpl in H. injection H as <-.
    apply IH in Ep; [| now apply NoDup_remove].
    destruct Ep as (Hnd' & Hmem & Hbefore).
    split; [| split].
    + constructor; [| exact Hnd']. rewrite Hmem, In_remove. tauto.
    + intro y. simpl. rewrite Hmem, In_remove.
      destruct (Dimension_eq_dec y v) as [->|N]; [tauto |].
      split; [intros [E|[Hy _]]; [congruence | exact Hy] | auto].
    + intros a b He Ha Hb.
      assert (Nb : b <> v).
      { intros ->. exact (free_true _ _ _ _ Hfree He Ha). }
      destruct (Dimension_eq_dec a v) as [->|Na].
      * apply before_head. apply Hmem, In_remove. tauto.
      * apply before_cons, Hbefore; [exact He | |];
          apply In_remove; tauto.
Qed.

End ResolverSound.

Section TopologicalValidity.
Import Tools Symbolics Resolver Algorithms Spec.

(** Neighbours in a relation make an edge. *)
Lemma chain_neighbours : forall r i a b,
  nth_error r i = Some a -> nth_error r (S i) = Some b -> In (a, b) (chain r).
Proof.
  induction r as [|x r IH]; intros i a b Ha Hb; [destruct i; discriminate |].
  destruct r as [|y r]; [destruct i as [|[|i]]; discriminate |].
  destruct i as [|i].
  - simpl in Ha, Hb. injection Ha as ->. injection Hb as ->. now left.
  - right. apply (IH i); assumption.
Qed.

Lemma In_chain : forall r a b, In (a, b) (chain r) -> In a r /\ In b r.
Proof.
  induction r as [|x r IH]; intros a b H; [destruct H |].
  destruct r as [|y r]; [destruct H |].
  destruct H as [E|H].
  - injection E as -> ->. simpl. auto.
  - apply IH in H. simpl in *. tauto.
Qed.

(** Neighbours in order and no repetition in [out]: all of [r] in
    order. *)
Lemma respects_neighbours : forall out r,
  NoDup out ->
  (forall i a b, nth_error r i = Some a -> nth_error r (S i) = Some b ->
                 before out a b) ->
  respects out r.
Proof.
  intros out r Hnd H i j a b Hij Ha Hb.
  remember (j - S i) as k eqn:Ek. revert j b Hij Hb Ek.
  induction k as [|k IH]; intros j b Hij Hb Ek.
  - assert (j = S i) by lia. subst j. now apply (H i).
  - destruct j as [|j]; [lia |].
    destruct (nth_error r j) as [c|] eqn:Ec.
    + apply (before_trans out a c b Hnd).
      * apply (IH j); [lia | exact Ec | lia].
      * now apply (H j).
    + apply nth_error_None in Ec.
      assert (S j < List.length r) by (apply nth_error_Some; congruence).
      lia.
Qed.

Lemma In_vertices : forall elements relations r d,
  In r relations -> In d r -> In d (vertices elements relations).
Proof.
  intros elements relations r d Hr Hd. unfold vertices.
  rewrite (In_unique _ Dimension_eqb_eq). apply in_or_app. right.
  rewrite In_sort_by, (In_unique _ Dimension_eqb_eq).
  apply in_concat. now exists r.
Qed.

(** Neighbours in order or equal, and no repetition in [out]: the
    elements of [r] that differ, in order. *)
Lemma follows_neighbours : forall out r,
  NoDup out ->
  (forall i a b, nth_error r i = Some a -> nth_error r (S i) = Some b ->
                 a = b \/ before out a b) ->
  follows out r.
Proof.
  intros out r Hnd H.
  assert (G : forall k i j a b,
    j = S i + k -> nth_error r i = Some a -> nth_error r j = Some b ->
    a = b \/ before out a b).
  { induction k as [|k IH]; intros i j a b Ej Ha Hb.
    - subst j. rewrite Nat.add_0_r in Hb. now apply (H i).
    - subst j. rewrite Nat.add_succ_r in Hb.
      destruct (nth_error r (S i + k)) as [c|] eqn:Ec.
      + destruct (IH i (S i + k) a c eq_refl Ha Ec) as [->|Hac];
          [now apply (H (S i + k)) |].
        destruct (H (S i + k) c b Ec Hb) as [->|Hcb]; [now right |].
        right. now apply (before_trans out a c b).
      + apply nth_error_None in Ec.
        assert (S (S i + k) < List.length r)
          by (apply nth_error_Some; congruence).
        lia. }
  intros i j a b Hij Ha Hb Hne.
  destruct (G (j - S i) i j a b) as [E|B]; auto; [lia | contradiction].
Qed.

(** The resolver, when it answers, answers with an order that every
    relation agrees with. *)
Lemma PartialOrderTuple_sound : forall elements relations out,
  PartialOrderTuple elements relations = Ok out ->
  NoDup out /\ forall r, In r relations -> follows out r.
Proof.
  intros elements relations out H. unfold PartialOrderTuple in H.
  apply place_sound in H;
    [| apply (NoDup_unique _ Dimension_eqb_eq)].
  destruct H as (Hnd & _ & Hbefore). split; [exact Hnd |].
  intros r Hr. apply follows_neighbours; [exact Hnd |].
  intros i a b Ha Hb.
  destruct (Dimension_eq_dec a b) as [E|N]; [now left | right].
  assert (He : In (a, b) (chain r)) by now apply (chain_neighbours r i).
  apply Hbefore.
  - unfold edges. apply filter_In. split.
    + apply in_flat_map. now exists r.
    + simpl. apply negb_true_iff. now apply Dimension_eqb_neq.
  - apply (In_vertices _ _ r); [exact Hr |]. now apply (In_chain r a b).
  - apply (In_vertices _ _ r); [exact Hr |]. now apply (In_chain r a b).
Qed.

Lemma mapM_as_Dimension : forall r : Relation,
  mapM as_Dimension (map EDim r) = Ok r.
Proof.
  induction r as [|d r IH]; [reflexivity |]. simpl. now rewrite IH.
Qed.

Lemma mapM_relations : forall l : list Relation,
  mapM (mapM as_Dimension) (map (map EDim) l) = Ok l.
Proof.
  induction l as [|r l IH]; [reflexivity |].
  simpl. now rewrite mapM_as_Dimension, IH.
Qed.

Lemma merge_subdomain_none : forall expr relations,
  has_ordering expr = false ->
  merge_subdomain relations (subdomain_indices expr)
  = Ok (map (map EDim) relations).
Proof.
  intros expr relations H. unfold has_ordering in H. unfold merge_subdomain.
  destruct (subdomain_indices expr) as [s|]; [| reflexivity].
  now rewrite H.
Qed.

Lemma follows_distinct : forall out r,
  NoDup r -> follows out r -> respects out r.
Proof.
  intros out r Hnd H i j a b Hij Ha Hb. apply (H i j); auto.
  intros ->. assert (i = j); [| lia].
  apply (proj1 (NoDup_nth_error r) Hnd); [apply nth_error_Some |]; congruence.
Qed.

(** C2, as the code has it.  For an equation without a subdomain
    ordering, a sequence that [dimension_sort] returns places the
    dimensions of every extracted relation that differ one before the
    other, in the order of the relation; so it places d1 before d2 ...
    before dn when no dimension is repeated in the relation. *)
Theorem dimension_sort_respects_relations :
  forall set_order expr out,
    yields_all set_order ->
    has_ordering expr = false ->
    dimension_sort set_order expr = Ok out ->
    forall r, In r (extracted expr) ->
              follows out r /\ (NoDup r -> respects out r).
Proof.
  intros set_order expr out Hall Hno H r Hr. unfold dimension_sort in H.
  destruct (resolver_input set_order expr) as [[extra relations]|e] eqn:E;
    [| discriminate].
  simpl in H. apply PartialOrderTuple_sound in H. destruct H as [_ H].
  assert (F : follows out r).
  { apply H. apply resolver_input_Ok in E.
    destruct E as (merged & rels & Em & Er & _ & ->).
    rewrite (merge_subdomain_none _ _ Hno) in Em. injection Em as <-.
    rewrite mapM_relations in Er. injection Er as <-.
    rewrite (In_unique _ Relation_eqb_eq). apply in_or_app. left.
    apply (Permutation_in r (Permutation_sym (Hall (extracted expr)))), Hr. }
  split; [exact F |]. intro Hnd. now apply follows_distinct.
Qed.

Lemma dimension_sort_respects_relations_witness :
  follows [Sample.x; Sample.y] [Sample.x; Sample.y]
  /\ (NoDup [Sample.x; Sample.y] ->
      respects [Sample.x; Sample.y] [Sample.x; Sample.y]).
Proof.
  apply (dimension_sort_respects_relations (fun l => l) Sample.shifted
           [Sample.x; Sample.y]).
  - intro l. apply Permutation_refl.
  - reflexivity.
  - reflexivity.
  - left. reflexivity.
Defined.

(** C2 as worded fails, in two ways.  [w[x, time] = 0] yields the
    relation [(x, time)]; with the subdomain ordering [n] the combined
    relation is [(time, n, x)], and the answer puts [time] before [x].
    [f[x, x] = 0] yields the relation [(x, x)], and no sequence puts [x]
    before itself. *)
Lemma dimension_sort_respects_relations_counterexample :
  (In [Sample.x; Sample.time] (extracted Sample.reversed)
   /\ dimension_sort (fun l => l) Sample.reversed
      = Ok [Sample.time; Sample.n; Sample.x]
   /\ ~ respects [Sample.time; Sample.n; Sample.x] [Sample.x; Sample.time])
  /\ (In [Sample.x; Sample.x] (extracted Sample.repeated)
      /\ dimension_sort (fun l => l) Sample.repeated
         = Ok [Sample.x; Sample.y]
      /\ ~ respects [Sample.x; Sample.y] [Sample.x; Sample.x]).
Proof.
  split.
  - split; [now left |]. split; [reflexivity |].
    intro H.
    destruct (H 0 1 Sample.x Sample.time) as (i & j & Hi & Hj & Hij);
      [lia | reflexivity | reflexivity |].
    destruct j as [|[|[|j]]]; simpl in Hj; try discriminate; try lia.
    destruct j; discriminate.
  - split; [now left |]. split; [reflexivity |].
    intro H.
    destruct (H 0 1 Sample.x Sample.x) as (i & j & Hi & Hj & Hij);
      [lia | reflexivity | reflexivity |].
    destruct j as [|[|[|j]]]; simpl in Hj; try discriminate; lia.
Qed.

(** No sequence without repetition agrees with both [(n, x, y)] and
    [(n, y, x)]. *)
Lemma respects_both_ways : forall out,
  NoDup out ->
  respects out [Sample.n; Sample.x; Sample.y] ->
  respects out [Sample.n; Sample.y; Sample.x] ->
  False.
Proof.
  intros out Hnd H1 H2.
  destruct (H1 1 2 Sample.x Sample.y) as (i & j & Hi & Hj & Hij);
    [lia | reflexivity | reflexivity |].
  destruct (H2 1 2 Sample.y Sample.x) as (j' & i' & Hj' & Hi' & Hji);
    [lia | reflexivity | reflexivity |].
  assert (i = i').
  { apply (proj1 (NoDup_nth_error out) Hnd);
      [apply nth_error_Some |]; congruence. }
  assert (j = j').
  { apply (proj1 (NoDup_nth_error out) Hnd);
      [apply nth_error_Some |]; congruence. }
  lia.
Qed.

(** C3 fails on the code.  For [f[x, y] = g[y, x]] with the subdomain
    ordering [n], the set of line 56 holds two relations; the answer
    follows the one that [pop] takes, which the order of the set
    decides: the resolver is handed [(n, x, y)] one way and [(n, y, x)]
    the other, and answers accordingly. *)
Theorem dimension_sort_depends_on_set_order :
  yields_all (fun l => l)
  /\ yields_all (@rev Relation)
  /\ resolver_input (fun l => l) Sample.transposed
     = Ok ([Sample.x; Sample.y], [[Sample.n; Sample.x; Sample.y]])
  /\ resolver_input (@rev Relation) Sample.transposed
     = Ok ([Sample.x; Sample.y], [[Sample.n; Sample.y; Sample.x]])
  /\ dimension_sort (fun l => l) Sample.transposed
     = Ok [Sample.n; Sample.x; Sample.y]
  /\ dimension_sort (@rev Relation) Sample.transposed
     = Ok [Sample.n; Sample.y; Sample.x].
Proof.
  split; [intro l; apply Permutation_refl |].
  split; [intro l; apply Permutation_sym, Permutation_rev |].
  repeat split; reflexivity.
Qed.

End TopologicalValidity.

(** ** The resolver fails only on contradictory relations *)

Section ResolverStuck.
Import Resolver Spec.

Lemma length_remove : forall v l,
  In v l -> List.length (remove v l) < List.length l.
Proof.
  intros v l. unfold remove. induction l as [|x l IH]; intros H;
    [destruct H |].
  simpl. destruct (Dimension_eqb x v) eqn:E; simpl.
  - pose proof (filter_length_le (fun x => negb (Dimension_eqb x v)) l). lia.
  - destruct H as [->|H]; [now rewrite Dimension_eqb_refl in E |].
    apply IH in H. lia.
Qed.

Lemma free_false : forall es remaining v,
  free es remaining v = false ->
  exists a, In (a, v) es /\ In a remaining.
Proof.
  intros es remaining v H. unfold free in H. apply negb_false_iff in H.
  apply existsb_exists in H. destruct H as ([a b] & He & H). simpl in H.
  apply andb_prop in H. destruct H as [Hb Ha].
  apply Dimension_eqb_eq in Hb. subst b.
  apply (mem_In _ Dimension_eqb_eq) in Ha. now exists a.
Qed.

(** With a step for each vertex, the placement stops only in front of
    vertices that all wait for one another. *)
Lemma place_stuck : forall steps es remaining e,
  List.length remaining <= steps ->
  place steps es remaining = Raise e ->
  e = CycleDetected
  /\ exists stuck,
       stuck <> [] /\ incl stuck remaining
       /\ forall v, In v stuck -> exists a, In (a, v) es /\ In a stuck.
Proof.
  induction steps as [|steps IH]; intros es remaining e Hlen H.
  - destruct remaining; [discriminate | simpl in Hlen; lia].
  - destruct remaining as [|x0 rem']; [discriminate |].
    set (remaining := x0 :: rem') in *.
    cbn [place] in H. fold remaining in H.
    destruct (find (free es remaining) remaining) as [v|] eqn:Ef.
    + apply find_some in Ef. destruct Ef as [Hv _].
      destruct (place steps es (remove v remaining)) as [rest|e'] eqn:Ep;
        [discriminate |].
      simpl in H. injection H as ->.
      apply IH in Ep; [| pose proof (length_remove v remaining Hv); lia].
      destruct Ep as (-> & stuck & Hne & Hincl & Hstuck).
      split; [reflexivity |]. exists stuck. split; [exact Hne |].
      split; [| exact Hstuck].
      intros y Hy. apply Hincl, In_remove in Hy. tauto.
    + injection H as <-. split; [reflexivity |].
      exists remaining. split; [discriminate |]. split; [apply incl_refl |].
      intros v Hv. apply free_false. now apply (find_none _ _ Ef).
Qed.

(** The resolver always answers: with an order, or with [CycleDetected]
    when some dimensions all wait for one another. *)
Lemma PartialOrderTuple_answers : forall elements relations,
  (exists out, PartialOrderTuple elements relations = Ok out)
  \/ (PartialOrderTuple elements relations = Raise CycleDetected
      /\ exists stuck,
           stuck <> []
           /\ forall v, In v stuck ->
                        exists a, In (a, v) (edges relations) /\ In a stuck).
Proof.
  intros elements relations. unfold PartialOrderTuple.
  destruct (place _ _ _) as [out|e] eqn:E; [left; now exists out |].
  right. apply place_stuck in E; [| apply Nat.le_refl].
  destruct E as (-> & stuck & Hne & _ & Hstuck).
  split; [reflexivity |]. now exists stuck.
Qed.

End ResolverStuck.

(** ** Sorting by name *)

Section SortedByName.
Import Tools.

Lemma ascending_insert_by {A} (key : A -> string) : forall l x,
  ascending key l -> ascending key (insert_by key x l).
Proof.
  induction l as [|y l IH]; intros x H; [exact I |].
  simpl. destruct (String.leb (key x) (key y)) eqn:E.
  - split; [exact E | exact H].
  - assert (Hyx : String.leb (key y) (key x) = true)
      by (destruct (String.leb_total (key x) (key y)); congruence).
    specialize (IH x). destruct l as [|z l].
    + simpl. auto.
    + destruct H as [Hyz H]. specialize (IH H). simpl in *.
      destruct (String.leb (key x) (key z)); simpl; auto.
Qed.

Lemma ascending_sort_by {A} (key : A -> string) : forall l,
  ascending key (sort_by key l).
Proof.
  induction l as [|x l IH]; [exact I |]. now apply ascending_insert_by.
Qed.

(** The extra dimensions come sorted by name. *)
Lemma extra_of_ascending : forall expr,
  ascending name (Algorithms.extra_of expr).
Proof. intro expr. apply ascending_sort_by. Qed.

End SortedByName.

(** ** More on stencils: items, extraction and union *)

Section StencilMore.
Import Stencil.

(** X1.  [s[k] = v] then [s.get(k)]: the value stored last is read back, the
    other keys are left alone, and [k] keeps its place or goes last. *)
Theorem setitem_get :
  forall s k v d dflt,
    get (setitem s k v) k dflt = v
    /\ (d <> k -> get (setitem s k v) d dflt = get s d dflt)
    /\ (In k (keys s) -> keys (setitem s k v) = keys s)
    /\ (~ In k (keys s) -> keys (setitem s k v) = keys s ++ [k]).
Proof.
  intros s k v d dflt. unfold get. rewrite lookup_setitem_same.
  split; [reflexivity |]. split.
  - intro H. now rewrite lookup_setitem_other.
  - rewrite keys_setitem. unfold add_key. split; intro H.
    + apply (mem_In _ Dimension_eqb_eq) in H. now rewrite H.
    + apply (mem_false _ Dimension_eqb_eq) in H. now rewrite H.
Qed.

(** What the scan of the arguments keeps: the integer arguments that are
    no Dimension, in order, and the last Dimension. *)
Lemma scan_args_spec : forall l d off,
  scan_args l d off =
  (match rev (only_Dimensions l) with
   | x :: _ => Some x
   | [] => d
   end,
   off ++ filter (fun idx => negb (isDimension idx) && is_integer idx) l).
Proof.
  induction l as [|idx l IH]; intros d off; simpl.
  - now rewrite app_nil_r.
  - destruct idx as [x|n b|z|f|f i|h i];
      try (cbn [isDimension negb andb]; destruct (is_integer _) eqn:E;
           rewrite IH; cbn [only_Dimensions]; rewrite ?E;
           [rewrite <- app_assoc |]; reflexivity).
    rewrite IH. cbn [only_Dimensions rev]. simpl.
    destruct (rev (only_Dimensions l)); reflexivity.
Qed.

(** The offsets that one visit registers stay to the end. *)
Lemma extract_keeps : forall expr access a d x,
  In access (accesses expr) ->
  In a (Algorithms.indices_of access) ->
  (forall s, In x (stored (visit_index s a) d)) ->
  In x (stored (extract expr) d).
Proof.
  intros expr access a d x Ha Hi Hv. unfold extract.
  generalize empty_stencil as s. revert Ha. generalize (accesses expr) as l.
  induction l as [|e l IH]; intros Ha s; [destruct Ha |].
  simpl. destruct Ha as [->|Ha]; [| now apply IH].
  assert (H : In x (stored (fold_left visit_index
                              (Algorithms.indices_of access) s) d)).
  { revert Hi. generalize (Algorithms.indices_of access) as idx. clear - Hv.
    intros idx. revert s. induction idx as [|b idx IH]; intros s Hi;
      [destruct Hi |].
    simpl. destruct Hi as [->|Hi]; [| now apply IH].
    apply stored_visit_indices, Hv. }
  revert H. generalize (fold_left visit_index (Algorithms.indices_of access) s).
  clear. induction l as [|e l IH]; intros s' H; simpl; [assumption |].
  apply IH, stored_visit_indices, H.
Qed.

(** X2.  In an index expression with exactly one Dimension among its
    arguments, every integer argument is an offset of that Dimension in
    the stencil, for every access that [extract] scans. *)
Theorem extract_registers_offsets :
  forall expr access a d o,
    In access (accesses expr) ->
    In a (Algorithms.indices_of access) ->
    only_Dimensions (args a) = [d] ->
    In o (args a) ->
    isDimension o = false ->
    is_integer o = true ->
    In o (stored (extract expr) d).
Proof.
  intros expr access a d o Ha Hi Hd Ho Hnd Hint.
  apply (extract_keeps expr access a); [assumption | assumption |].
  intro s. unfold visit_index. rewrite scan_args_spec, Hd. simpl.
  unfold stored. rewrite lookup_update_at_same. apply In_set_update. right.
  apply filter_In. split; [exact Ho |]. now rewrite Hnd, Hint.
Qed.

Lemma extract_registers_offsets_witness :
  In (EInteger (-2)) (stored (extract Sample.shifted) Sample.y).
Proof.
  apply (extract_registers_offsets Sample.shifted
           (EIndexed Sample.g [ENode HAdd [EInteger 1; EDim Sample.x];
                               ENode HAdd [EInteger (-2); EDim Sample.y]])
           (ENode HAdd [EInteger (-2); EDim Sample.y])).
  - right. left. reflexivity.
  - right. left. reflexivity.
  - reflexivity.
  - left. reflexivity.
  - reflexivity.
  - reflexivity.
Defined.

End StencilMore.

Section StencilOrigin.
Import Stencil Spec.

Lemma In_keys_update_at : forall s k l d,
  In d (keys (update_at s k l)) <-> In d (keys s) \/ d = k.
Proof. intros s k l d. now rewrite keys_update_at, In_add_key. Qed.

Lemma stored_keys : forall s d x, In x (stored s d) -> In d (keys s).
Proof.
  intros s d x H. unfold stored in H.
  destruct (lookup s d) as [v|] eqn:E; [| destruct H].
  now apply lookup_In in E.
Qed.

Lemma scan_args_Dimension : forall l d off,
  scan_args l None [] = (Some d, off) ->
  In (EDim d) l
  /\ forall x, In x off ->
               In x l /\ isDimension x = false /\ is_integer x = true.
Proof.
  intros l d off H. rewrite scan_args_spec in H. simpl in H.
  injection H as Hd <-. split.
  - apply In_only_Dimensions, in_rev.
    destruct (rev (only_Dimensions l)) as [|y r]; [discriminate |].
    injection Hd as ->. now left.
  - intros x Hx. apply filter_In in Hx. destruct Hx as [Hx Hb].
    apply andb_prop in Hb. destruct Hb as [Hb1 Hb2].
    apply negb_true_iff in Hb1. auto.
Qed.

(** One visit stores nothing that the index expression does not show. *)
Lemma visit_index_origin : forall s a d,
  (In d (keys (visit_index s a)) ->
   In d (keys s) \/ a = EDim d \/ In (EDim d) (args a))
  /\ (forall x, In x (stored (visit_index s a) d) ->
                In x (stored s d) \/ registers a d x).
Proof.
  intros s a d. unfold visit_index.
  set (s1 := match a with EDim x0 => update_at s x0 [zero] | _ => s end).
  assert (K1 : In d (keys s1) -> In d (keys s) \/ a = EDim d).
  { unfold s1. destruct a as [x0| | | | |]; auto.
    rewrite In_keys_update_at. intros [H| ->]; auto. }
  assert (V1 : forall x, In x (stored s1 d) ->
                         In x (stored s d) \/ (a = EDim d /\ x = zero)).
  { unfold s1. destruct a as [x0| | | | |]; auto.
    intros x. rewrite In_stored_update_at.
    intros [H|[-> [<-|[]]]]; auto. }
  destruct (scan_args (args a) None []) as [[d'|] off] eqn:E.
  - apply scan_args_Dimension in E. destruct E as [Hd' Hoff]. split.
    + rewrite In_keys_update_at. intros [H| ->]; [| auto].
      destruct (K1 H); auto.
    + intros x. rewrite In_stored_update_at. intros [H|[-> H]].
      * destruct (V1 x H) as [H'|H']; [now left | right; now left].
      * right. right. destruct (Hoff x H) as (H1 & H2 & H3). auto.
  - split.
    + intro H. destruct (K1 H); auto.
    + intros x H. destruct (V1 x H) as [H'|H']; [now left | right; now left].
Qed.

Lemma visit_indices_origin : forall idx s d,
  (In d (keys (fold_left visit_index idx s)) ->
   In d (keys s)
   \/ exists a, In a idx /\ (a = EDim d \/ In (EDim d) (args a)))
  /\ (forall x, In x (stored (fold_left visit_index idx s) d) ->
                In x (stored s d) \/ exists a, In a idx /\ registers a d x).
Proof.
  induction idx as [|a idx IH]; intros s d; simpl; [split; auto |].
  destruct (IH (visit_index s a) d) as [IHk IHv].
  destruct (visit_index_origin s a d) as [Ok Ov]. split.
  - intro H. destruct (IHk H) as [H'|(b & Hb & H')].
    + destruct (Ok H') as [H''|H'']; [now left |].
      right. exists a. auto.
    + right. exists b. auto.
  - intros x H. destruct (IHv x H) as [H'|(b & Hb & H')].
    + destruct (Ov x H') as [H''|H'']; [now left |].
      right. exists a. auto.
    + right. exists b. auto.
Qed.

(** X3.  [extract] makes nothing up: every Dimension it stores is an index
    expression, or an argument of one, of an access it scans, and every
    offset it stores is the zero of a bare Dimension or an integer
    argument found beside the Dimension. *)
Theorem extract_origin :
  forall expr d,
    (In d (keys (extract expr)) ->
     exists access a,
       In access (accesses expr) /\ In a (Algorithms.indices_of access)
       /\ (a = EDim d \/ In (EDim d) (args a)))
    /\ (forall x, In x (stored (extract expr) d) ->
        exists access a,
          In access (accesses expr) /\ In a (Algorithms.indices_of access)
          /\ registers a d x).
Proof.
  intros expr d. unfold extract.
  assert (G : forall l s,
    (In d (keys (fold_left
                   (fun stencil e =>
                      fold_left visit_index (Algorithms.indices_of e) stencil)
                   l s)) ->
     In d (keys s)
     \/ exists access a, In access l /\ In a (Algorithms.indices_of access)
                         /\ (a = EDim d \/ In (EDim d) (args a)))
    /\ (forall x,
        In x (stored (fold_left
                        (fun stencil e =>
                           fold_left visit_index (Algorithms.indices_of e)
                                     stencil) l s) d) ->
        In x (stored s d)
        \/ exists access a, In access l /\ In a (Algorithms.indices_of access)
                            /\ registers a d x)).
  { induction l as [|e l IH]; intros s; simpl; [split; auto |].
    destruct (IH (fold_left visit_index (Algorithms.indices_of e) s))
      as [IHk IHv].
    destruct (visit_indices_origin (Algorithms.indices_of e) s d) as [Ok Ov].
    split.
    - intro H. destruct (IHk H) as [H'|(acc & a & Hacc & Ha & H')].
      + destruct (Ok H') as [H''|(a & Ha & H'')]; [now left |].
        right. exists e, a. auto.
      + right. exists acc, a. auto.
    - intros x H. destruct (IHv x H) as [H'|(acc & a & Hacc & Ha & H')].
      + destruct (Ov x H') as [H''|(a & Ha & H'')]; [now left |].
        right. exists e, a. auto.
      + right. exists acc, a. auto. }
  destruct (G (accesses expr) empty_stencil) as [Gk Gv]. split.
  - intro H. destruct (Gk H) as [[]|H']; exact H'.
  - intros x H. destruct (Gv x H) as [[]|H']; exact H'.
Qed.

End StencilOrigin.

Section UnionMore.
Import Stencil.

Lemma In_stored_merges : forall ds output d x,
  In x (stored (fold_left merge ds output) d)
  <-> In x (stored output d) \/ exists s, In s ds /\ holds s d x.
Proof.
  induction ds as [|i ds IH]; intros output d x; simpl.
  - split; [auto | intros [H|(s & [] & _)]; exact H].
  - rewrite IH, In_stored_merge. split.
    + intros [[H|H]|(s & Hs & H)]; eauto.
    + intros [H|(s & [<-|Hs] & H)]; eauto.
Qed.

Lemma In_keys_merges : forall ds output d,
  In d (keys (fold_left merge ds output))
  <-> In d (keys output) \/ exists s, In s ds /\ In d (keys s).
Proof.
  induction ds as [|i ds IH]; intros output d; simpl.
  - split; [auto | intros [H|(s & [] & _)]; exact H].
  - rewrite IH, keys_merge, In_fold_add_key. split.
    + intros [[H|H]|(s & Hs & H)]; eauto.
    + intros [H|(s & [<-|Hs] & H)]; eauto.
Qed.

(** X4.  The union of any number of stencils stores a dimension when one of
    them does, and stores under it the offsets that they hold for it,
    no other. *)
Theorem union_content :
  forall dicts d,
    (In d (keys (union dicts)) <-> exists s, In s dicts /\ In d (keys s))
    /\ (forall x, In x (stored (union dicts) d)
                  <-> exists s, In s dicts /\ holds s d x).
Proof.
  intros dicts d. change (union dicts) with (fold_left merge dicts empty_stencil).
  split.
  - rewrite In_keys_merges. simpl. tauto.
  - intro x. rewrite In_stored_merges. unfold stored at 1. simpl. tauto.
Qed.

(** New keys go last, in their order. *)
Lemma fold_add_key_fresh : forall l acc,
  NoDup l ->
  fold_left add_key l acc
  = acc ++ filter (fun k => negb (mem Dimension_eqb k acc)) l.
Proof.
  induction l as [|k l IH]; intros acc Hnd; simpl; [now rewrite app_nil_r |].
  apply NoDup_cons_iff in Hnd. destruct Hnd as [Hk Hnd].
  rewrite (IH _ Hnd). unfold add_key.
  destruct (mem Dimension_eqb k acc) eqn:E; simpl; [reflexivity |].
  rewrite <- app_assoc. simpl. f_equal. f_equal.
  apply filter_ext_in. intros d Hd. f_equal.
  destruct (mem Dimension_eqb d acc) eqn:E1.
  - apply (mem_In _ Dimension_eqb_eq). apply in_or_app. left.
    now apply (mem_In _ Dimension_eqb_eq).
  - apply (mem_false _ Dimension_eqb_eq).
    apply (mem_false _ Dimension_eqb_eq) in E1.
    intro H. apply in_app_or in H. destruct H as [H|[<-|[]]]; auto.
Qed.

(** X5.  First-encounter order: [union(A, B)] lists the dimensions of [A] in
    their order, then those of [B] that [A] does not have, in their
    order. *)
Theorem union_key_order :
  forall A B,
    NoDup (keys A) -> NoDup (keys B) ->
    keys (union [A; B])
    = keys A
      ++ filter (fun k => negb (mem Dimension_eqb k (keys A))) (keys B).
Proof.
  intros A B HA HB. rewrite keys_union2, fold_left_app.
  rewrite (fold_add_key_fresh (keys A) [] HA). simpl.
  assert (E : filter (fun _ : Dimension => true) (keys A) = keys A).
  { clear. induction (keys A) as [|k l IH]; simpl; congruence. }
  rewrite E. now apply fold_add_key_fresh.
Qed.

Lemma union_key_order_witness :
  keys (union [[(Sample.x, [zero])];
               [(Sample.y, [zero]); (Sample.x, [EInteger 1])]])
  = [Sample.x; Sample.y].
Proof.
  apply (union_key_order [(Sample.x, [zero])]
           [(Sample.y, [zero]); (Sample.x, [EInteger 1])]).
  - repeat constructor. simpl. tauto.
  - repeat constructor; simpl; [intros [H|[]]; discriminate | tauto].
Defined.

Lemma filter_none : forall (l : list Dimension),
  filter (fun k => negb (mem Dimension_eqb k l)) l = [].
Proof.
  intro l. assert (G : forall m, incl m l ->
    filter (fun k => negb (mem Dimension_eqb k l)) m = []).
  { induction m as [|k m IH]; intro H; [reflexivity |]. simpl.
    assert (E : mem Dimension_eqb k l = true)
      by (apply (mem_In _ Dimension_eqb_eq), H; now left).
    rewrite E. simpl. apply IH. intros d Hd. apply H. now right. }
  apply G, incl_refl.
Qed.

(** X6.  A stencil is the union of itself alone, of itself twice, and of
    itself with the empty stencil on either side. *)
Theorem union_identities :
  forall A,
    NoDup (keys A) ->
    eqb (union [A]) A = true
    /\ eqb (union [A; A]) A = true
    /\ eqb (union [A; empty_stencil]) A = true
    /\ eqb (union [empty_stencil; A]) A = true.
Proof.
  intros A HA.
  assert (S : forall d x, holds A d x <-> In x (stored A d))
    by (intros d x; now apply holds_stored).
  assert (N : forall d x, ~ holds empty_stencil d x)
    by (intros d x (v & [] & _)).
  assert (K : fold_left add_key (keys A) [] = keys A).
  { rewrite (fold_add_key_fresh _ [] HA). simpl.
    clear. induction (keys A) as [|k l IH]; simpl; congruence. }
  repeat split.
  - apply eqb_intro.
    + change (union [A]) with (merge empty_stencil A).
      now rewrite keys_merge.
    + change (union [A]) with (merge empty_stencil A).
      rewrite keys_merge. simpl. now rewrite K.
    + intros d x. change (union [A]) with (merge empty_stencil A).
      rewrite In_stored_merge, <- S. unfold stored at 1. simpl. tauto.
  - apply eqb_intro.
    + rewrite keys_union2, fold_left_app, K.
      rewrite (fold_add_key_fresh _ _ HA), filter_none. apply app_nil_r.
    + apply NoDup_keys_union2.
    + intros d x. rewrite In_stored_union2, <- S. tauto.
  - apply eqb_intro.
    + rewrite keys_union2. simpl. now rewrite app_nil_r.
    + apply NoDup_keys_union2.
    + intros d x. rewrite In_stored_union2, <- S. specialize (N d x). tauto.
  - apply eqb_intro.
    + now rewrite keys_union2.
    + apply NoDup_keys_union2.
    + intros d x. rewrite In_stored_union2, <- S. specialize (N d x). tauto.
Qed.

Lemma union_identities_witness :
  eqb (union [[(Sample.x, [zero; EInteger 1])]])
      [(Sample.x, [zero; EInteger 1])] = true
  /\ eqb (union [[(Sample.x, [zero; EInteger 1])];
                 [(Sample.x, [zero; EInteger 1])]])
         [(Sample.x, [zero; EInteger 1])] = true
  /\ eqb (union [[(Sample.x, [zero; EInteger 1])]; empty_stencil])
         [(Sample.x, [zero; EInteger 1])] = true
  /\ eqb (union [empty_stencil; [(Sample.x, [zero; EInteger 1])]])
         [(Sample.x, [zero; EInteger 1])] = true.
Proof.
  apply (union_identities [(Sample.x, [zero; EInteger 1])]).
  repeat constructor. simpl. tauto.
Defined.

End UnionMore.

(** ** More on [dimension_sort] *)

Section DimensionSortMore.
Import Tools Symbolics Resolver Algorithms Spec.

(** X7.  An equation with a subdomain ordering but no access at all:
    [relations.pop()] finds the set empty. *)
Theorem ordering_without_access :
  forall set_order expr,
    yields_all set_order ->
    extracted expr = [] ->
    has_ordering expr = true ->
    dimension_sort set_order expr = Raise KeyError.
Proof.
  intros set_order expr Hall He Ho.
  unfold dimension_sort, resolver_input. rewrite He.
  assert (E : set_order [] = [])
    by (apply Permutation_nil, Permutation_sym, Hall).
  rewrite E. unfold has_ordering in Ho. unfold merge_subdomain.
  destruct (subdomain_indices expr) as [s|]; [| discriminate].
  rewrite Ho. reflexivity.
Qed.

Lemma ordering_without_access_witness :
  dimension_sort (fun l => l)
    (mkEq (ESymbol "s" false) (EInteger 0) (Some (EDim Sample.x)))
  = Raise KeyError.
Proof.
  apply (ordering_without_access (fun l => l)
           (mkEq (ESymbol "s" false) (EInteger 0) (Some (EDim Sample.x)))).
  - intro l. apply Permutation_refl.
  - reflexivity.
  - reflexivity.
Defined.

(** X8.  Without a subdomain ordering, every extracted relation reaches the
    resolver, and so does the relation of the roots of its dimensions
    (line 87). *)
Theorem root_relation_passed :
  forall set_order expr extra relations r,
    yields_all set_order ->
    has_ordering expr = false ->
    resolver_input set_order expr = Ok (extra, relations) ->
    In r (extracted expr) ->
    In r relations /\ In (map root r) relations.
Proof.
  intros set_order expr extra relations r Hall Hno H Hr.
  apply resolver_input_Ok in H.
  destruct H as (merged & rels & Em & Er & _ & ->).
  rewrite (merge_subdomain_none _ _ Hno) in Em. injection Em as <-.
  rewrite mapM_relations in Er. injection Er as <-.
  assert (Hr' : In r (set_order (extracted expr)))
    by (apply (Permutation_in r (Permutation_sym (Hall (extracted expr)))), Hr).
  split; rewrite (In_unique _ Relation_eqb_eq); apply in_or_app.
  - now left.
  - right. rewrite (In_unique _ Relation_eqb_eq). apply in_or_app. right.
    now apply in_map.
Qed.

Lemma root_relation_passed_witness :
  In [Sample.time; Sample.xi]
     [[Sample.time; Sample.xi]; [Sample.x; Sample.xi]; [Sample.time; Sample.x]]
  /\ In (map root [Sample.time; Sample.xi])
        [[Sample.time; Sample.xi]; [Sample.x; Sample.xi];
         [Sample.time; Sample.x]].
Proof.
  apply (root_relation_passed (fun l => l) Sample.derived
           [Sample.time; Sample.x; Sample.xi]).
  - intro l. apply Permutation_refl.
  - reflexivity.
  - reflexivity.
  - left. reflexivity.
Defined.

Lemma In_resolver_relations : forall set_order expr extra relations d p,
  resolver_input set_order expr = Ok (extra, relations) ->
  In d extra -> parent d = Some p -> In [p; d] relations.
Proof.
  intros set_order expr extra relations d p H Hd Hp.
  apply resolver_input_Ok in H.
  destruct H as (merged & rels & _ & _ & -> & ->).
  rewrite (In_unique _ Relation_eqb_eq). apply in_or_app. right.
  rewrite (In_unique _ Relation_eqb_eq). apply in_or_app. left.
  rewrite (In_unique _ Relation_eqb_eq).
  now apply In_parent_relations.
Qed.

(** No dimension is its own parent. *)
Lemma parent_neq : forall d, parent d <> Some d.
Proof.
  fix IH 1. intros [n s [q|]]; simpl; [| discriminate].
  intro H. injection H as H. apply (IH q). rewrite H at 1. reflexivity.
Qed.

(** X9.  Parent precedence: in a returned sequence the parent of every
    derived extra dimension comes before it. *)
Theorem parent_precedes :
  forall set_order expr out d p,
    dimension_sort set_order expr = Ok out ->
    In d (extra_of expr) ->
    parent d = Some p ->
    before out p d.
Proof.
  intros set_order expr out d p H Hd Hp. unfold dimension_sort in H.
  destruct (resolver_input set_order expr) as [[extra relations]|e] eqn:E;
    [| discriminate].
  simpl in H. apply PartialOrderTuple_sound in H. destruct H as [_ H].
  assert (Hx : extra = extra_of expr).
  { apply resolver_input_Ok in E. now destruct E as (? & ? & _ & _ & -> & _). }
  subst extra.
  apply (H [p; d] (In_resolver_relations _ _ _ _ d p E Hd Hp) 0 1);
    [lia | reflexivity | reflexivity |].
  intros ->. now apply (parent_neq d).
Qed.

Lemma parent_precedes_witness :
  before [Sample.time; Sample.x; Sample.xi] Sample.x Sample.xi.
Proof.
  apply (parent_precedes (fun l => l) Sample.derived
           [Sample.time; Sample.x; Sample.xi] Sample.xi Sample.x).
  - reflexivity.
  - right. right. left. reflexivity.
  - reflexivity.
Defined.

Lemma PartialOrderTuple_members : forall elements relations out,
  PartialOrderTuple elements relations = Ok out ->
  NoDup out
  /\ forall d, In d out <->
               In d elements \/ exists r, In r relations /\ In d r.
Proof.
  intros elements relations out H. unfold PartialOrderTuple in H.
  apply place_sound in H; [| apply (NoDup_unique _ Dimension_eqb_eq)].
  destruct H as (Hnd & Hmem & _). split; [exact Hnd |].
  intro d. rewrite Hmem. unfold vertices.
  rewrite (In_unique _ Dimension_eqb_eq), in_app_iff, In_sort_by.
  rewrite (In_unique _ Dimension_eqb_eq), in_concat.
  split; intros [H|(r & H1 & H2)]; eauto.
Qed.

(** X10.  A returned sequence lists no dimension twice, and lists every
    Dimension among the symbols of the equation and every declared
    dimension of every function it accesses, at whatever depth. *)
Theorem dimension_sort_complete :
  forall set_order expr out,
    dimension_sort set_order expr = Ok out ->
    NoDup out
    /\ (forall d, In (EDim d) (symbols (as_Expr expr)) -> In d out)
    /\ (forall access d,
          In access (search true (as_Expr expr)) ->
          In d (function_indices access) -> In d out).
Proof.
  intros set_order expr out H. unfold dimension_sort in H.
  destruct (resolver_input set_order expr) as [[extra relations]|e] eqn:E;
    [| discriminate].
  simpl in H. apply PartialOrderTuple_members in H. destruct H as [Hnd H].
  assert (Hx : extra = extra_of expr).
  { apply resolver_input_Ok in E. now destruct E as (? & ? & _ & _ & -> & _). }
  subst extra. split; [exact Hnd |]. split.
  - intros d Hd. apply H. left. apply In_extra_of. now left.
  - intros access d Ha Hd. apply H. left. apply In_extra_of. right.
    now exists access.
Qed.

Lemma dimension_sort_complete_witness :
  NoDup [Sample.time; Sample.x; Sample.xi]
  /\ (forall d, In (EDim d) (symbols (as_Expr Sample.derived)) ->
                In d [Sample.time; Sample.x; Sample.xi])
  /\ (forall access d,
        In access (search true (as_Expr Sample.derived)) ->
        In d (function_indices access) ->
        In d [Sample.time; Sample.x; Sample.xi]).
Proof.
  apply (dimension_sort_complete (fun l => l) Sample.derived).
  reflexivity.
Defined.

End DimensionSortMore.

Section DimensionSortErrors.
Import Tools Symbolics Resolver Algorithms Spec.

(** X11.  An access whose index expressions are bare Dimensions or integer
    literals (as in [u[time, x, 3]]) yields its Dimensions, in order; a
    literal yields nothing. *)
Theorem handle_indexed_plain :
  forall f indices,
    (forall i, In i indices ->
               isDimension i = true \/ exists z, i = EInteger z) ->
    handle_indexed (EIndexed f indices) = only_Dimensions indices.
Proof.
  intros f indices H. unfold handle_indexed.
  cbn [handle_indexed_at indices_of].
  generalize (depth (EIndexed f indices)) as fuel. intro fuel.
  induction indices as [|i indices IH]; [reflexivity |].
  cbn [flat_map]. rewrite IH by (intros j Hj; apply H; now right).
  destruct (H i (or_introl eq_refl)) as [Hi|(z & ->)].
  - destruct i; try discriminate. reflexivity.
  - reflexivity.
Qed.

Lemma handle_indexed_plain_witness :
  handle_indexed (EIndexed Sample.v [EDim Sample.time; EInteger 3])
  = only_Dimensions [EDim Sample.time; EInteger 3].
Proof.
  apply (handle_indexed_plain Sample.v [EDim Sample.time; EInteger 3]).
  intros i [<-|[<-|[]]]; [left; reflexivity | right; now exists 3%Z].
Defined.

Lemma mapM_as_Dimension_app : forall (l : Relation) rest,
  mapM as_Dimension (map EDim l ++ rest)
  = (ys <- mapM as_Dimension rest ;; Ok (l ++ ys)).
Proof.
  induction l as [|d l IH]; intro rest; simpl.
  - destruct (mapM as_Dimension rest); reflexivity.
  - rewrite IH. destruct (mapM as_Dimension rest); reflexivity.
Qed.

Lemma mapM_as_Dimension_no : forall l s rest,
  isDimension s = false ->
  mapM as_Dimension (map EDim l ++ s :: rest) = Raise AttributeError.
Proof.
  intros l s rest Hs. rewrite mapM_as_Dimension_app.
  destruct s; try discriminate; reflexivity.
Qed.

Lemma combined_Dimension : forall r d b,
  combined r (EDim d) (Some b)
  = map EDim (NonSpace_of r ++ (if b then [] else [d])
              ++ Space_of r ++ (if b then [d] else [])).
Proof.
  intros r d b. unfold combined. rewrite !map_app.
  destruct b; reflexivity.
Qed.

(** X12.  Without a subdomain ordering, or with one that is a Dimension, the
    only failures of [dimension_sort] are [CycleDetected], and
    [KeyError] when there is an ordering but no relation to take. *)
Theorem dimension_sort_errors :
  forall set_order expr err,
    has_ordering expr = false
    \/ (exists d, subdomain_indices expr = Some (EDim d)) ->
    dimension_sort set_order expr = Raise err ->
    err = CycleDetected
    \/ (err = KeyError /\ has_ordering expr = true
        /\ set_order (extracted expr) = []).
Proof.
  intros set_order expr err Hs H. unfold dimension_sort in H.
  destruct (resolver_input set_order expr) as [[extra relations]|e] eqn:E.
  - simpl in H. left.
    destruct (PartialOrderTuple_answers extra relations)
      as [(out & Ho)|(Hc & _)]; congruence.
  - simpl in H. injection H as <-. unfold resolver_input in E.
    destruct Hs as [Hno|(d & Hd)].
    + rewrite (merge_subdomain_none _ _ Hno) in E. simpl in E.
      rewrite mapM_relations in E. discriminate.
    + rewrite Hd in E. cbn [merge_subdomain truthy] in E.
      destruct (set_order (extracted expr)) as [|r rest] eqn:Er.
      * simpl in E. injection E as <-. right.
        unfold has_ordering. rewrite Hd. auto.
      * rewrite order_relations_combined in E. cbn [kind_of bind] in E.
        rewrite combined_Dimension in E. cbn [mapM bind] in E.
        rewrite mapM_as_Dimension in E. discriminate.
Qed.

Lemma dimension_sort_errors_witness :
  KeyError = CycleDetected
  \/ (KeyError = KeyError
      /\ has_ordering
           (mkEq (ESymbol "s" false) (EInteger 0) (Some (EDim Sample.x)))
         = true
      /\ (fun l : list Relation => l)
           (extracted
              (mkEq (ESymbol "s" false) (EInteger 0) (Some (EDim Sample.x))))
         = []).
Proof.
  apply (dimension_sort_errors (fun l => l)
           (mkEq (ESymbol "s" false) (EInteger 0) (Some (EDim Sample.x)))
           KeyError).
  - right. now exists Sample.x.
  - reflexivity.
Defined.

(** X13.  A subdomain ordering that is no Dimension but has arguments never
    leads to an order: the classification raises, or line 87 fails to
    read its [root]. *)
Theorem composite_ordering_fails :
  forall set_order expr s,
    subdomain_indices expr = Some s ->
    truthy s = true ->
    isDimension s = false ->
    args s <> [] ->
    exists err,
      dimension_sort set_order expr = Raise err
      /\ (err = KeyError \/ err = ValueError \/ err = IndexError
          \/ err = AttributeError).
Proof.
  intros set_order expr s Hs Ht Hd Ha.
  unfold dimension_sort, resolver_input. rewrite Hs.
  cbn [merge_subdomain]. rewrite Ht.
  destruct (set_order (extracted expr)) as [|r rest];
    [exists KeyError; auto |].
  rewrite order_relations_combined.
  destruct (kind_of s) as [k|e] eqn:Ek.
  - assert (Hk : exists b, k = Some b).
    { destruct s as [d|n b|z|f|f l|h l]; try discriminate; simpl in Ha;
        try congruence; simpl in Ek.
      - destruct (only_Dimensions l) as [|d0 [|d1 dim]]; try discriminate.
        injection Ek as <-. eauto.
      - destruct l as [|a l]; [congruence |].
        destruct (only_Dimensions (a :: l)) as [|d0 [|d1 dim]];
          try discriminate.
        injection Ek as <-. eauto. }
    destruct Hk as (b & ->). exists AttributeError.
    split; [| auto]. cbn [bind]. unfold combined.
    destruct b; cbn [mapM bind].
    + rewrite app_nil_l, app_assoc, <- map_app.
      now rewrite (mapM_as_Dimension_no _ s [] Hd).
    + rewrite app_nil_r. cbn [app].
      now rewrite (mapM_as_Dimension_no _ s _ Hd).
  - exists e. split; [reflexivity |].
    destruct e; auto.
    exfalso. destruct s as [d|n b|z|f|f l|h l]; try discriminate;
      simpl in Ek.
    + destruct (only_Dimensions l) as [|d0 [|d1 dim]]; discriminate.
    + destruct l as [|a l]; [discriminate |].
      destruct (only_Dimensions (a :: l)) as [|d0 [|d1 dim]]; discriminate.
Qed.

Lemma composite_ordering_fails_witness :
  exists err,
    dimension_sort (fun l => l)
      (mkEq (EIndexed Sample.u [EDim Sample.time]) (EInteger 0)
            (Some (ENode HTuple [EDim Sample.x])))
    = Raise err
    /\ (err = KeyError \/ err = ValueError \/ err = IndexError
        \/ err = AttributeError).
Proof.
  apply (composite_ordering_fails (fun l => l)
           (mkEq (EIndexed Sample.u [EDim Sample.time]) (EInteger 0)
                 (Some (ENode HTuple [EDim Sample.x])))
           (ENode HTuple [EDim Sample.x])).
  - reflexivity.
  - reflexivity.
  - reflexivity.
  - discriminate.
Defined.

End DimensionSortErrors.

(** ** Stencils that share their sets *)

Section HeapStore.
Import Heap.

Lemma length_write : forall st r o, List.length (write st r o) = List.length st.
Proof.
  induction st as [|x st IH]; intros [|r] o; simpl; auto.
Qed.

Lemma deref_write_same : forall st r o,
  r < List.length st -> deref (write st r o) r = o.
Proof.
  unfold deref. induction st as [|x st IH]; intros [|r] o H; simpl in *;
    try lia; [reflexivity |]. apply IH. lia.
Qed.

Lemma deref_write_other : forall st r o r',
  r <> r' -> deref (write st r o) r' = deref st r'.
Proof.
  unfold deref. induction st as [|x st IH]; intros [|r] o [|r'] H; simpl;
    try reflexivity; try congruence. apply IH. congruence.
Qed.


Lemma deref_app_old : forall st new r,
  r < List.length st -> deref (st ++ new) r = deref st r.
Proof. intros st new r H. unfold deref. now apply app_nth1. Qed.

Lemma deref_app_new : forall st o, deref (st ++ [o]) (List.length st) = o.
Proof.
  intros st o. unfold deref. rewrite app_nth2 by lia.
  now rewrite Nat.sub_diag.
Qed.

Lemma hlookup_None : forall (s : Heap.t) d,
  lookup s d = None <-> ~ In d (map fst s).
Proof.
  induction s as [|[k v] s IH]; intros d; simpl; [tauto |].
  destruct (Dimension_eqb d k) eqn:E.
  - apply Dimension_eqb_eq in E. subst k.
    split; [discriminate | intros H; exfalso; apply H; now left].
  - apply Dimension_eqb_neq in E. rewrite IH.
    split; [intros H [H1|H1]; [congruence | tauto] | tauto].
Qed.

Lemma hlookup_In : forall (s : Heap.t) d r, lookup s d = Some r -> In (d, r) s.
Proof.
  induction s as [|[k w] s IH]; intros d r; simpl; [discriminate |].
  destruct (Dimension_eqb d k) eqn:E.
  - apply Dimension_eqb_eq in E. subst k. intro H. injection H as <-.
    now left.
  - intro H. right. now apply IH.
Qed.

Lemma hlookup_setitem_same : forall (s : Heap.t) k v,
  lookup (setitem s k v) k = Some v.
Proof.
  induction s as [|[k' v'] s IH]; intros k v; simpl.
  - now rewrite Dimension_eqb_refl.
  - destruct (Dimension_eqb k k') eqn:E; simpl; rewrite E; auto.
Qed.

Lemma setitem_setitem : forall (s : Heap.t) k v w,
  setitem (setitem s k v) k w = setitem s k w.
Proof.
  induction s as [|[k' v'] s IH]; intros k v w; simpl.
  - now rewrite Dimension_eqb_refl.
  - destruct (Dimension_eqb k k') eqn:E; simpl; rewrite E; [reflexivity |].
    now rewrite IH.
Qed.

Lemma setitem_fresh : forall (s : Heap.t) k v,
  ~ In k (map fst s) -> setitem s k v = s ++ [(k, v)].
Proof.
  induction s as [|[k' v'] s IH]; intros k v H; simpl; [reflexivity |].
  simpl in H. destruct (Dimension_eqb k k') eqn:E.
  - apply Dimension_eqb_eq in E. subst k'. tauto.
  - rewrite IH by tauto. reflexivity.
Qed.

(** A turn of the loop sets the key to the outcome of its [-=]. *)
Lemma subtract_step_eq : forall o st output k v,
  subtract_step o (st, output) (k, v) =
  let '(st1, r) :=
    match lookup o k with
    | Some y => isub st v y
    | None => (st, v)
    end in
  (st1, setitem output k r).
Proof.
  intros o st output k v. unfold subtract_step. cbn [fst snd].
  destruct (lookup o k) as [y|]; [| reflexivity].
  unfold getitem. rewrite hlookup_setitem_same.
  destruct (isub st v y) as [st1 r]. now rewrite setitem_setitem.
Qed.

Lemma keys_subtract_run : forall items st o,
  map fst (snd (subtract_run st items o)) = map fst items.
Proof.
  induction items as [|[k v] items IH]; intros st o; [reflexivity |].
  cbn [subtract_run].
  destruct (match lookup o k with Some y => isub st v y | None => (st, v) end)
    as [st1 r].
  specialize (IH st1 o). destruct (subtract_run st1 items o) as [st2 out].
  simpl in *. now rewrite IH.
Qed.

Lemma subtract_fold_run : forall items st output o,
  NoDup (map fst items) ->
  (forall k, In k (map fst items) -> ~ In k (map fst output)) ->
  fold_left (subtract_step o) items (st, output)
  = (fst (subtract_run st items o), output ++ snd (subtract_run st items o)).
Proof.
  induction items as [|[k v] items IH]; intros st output o Hnd Hdis.
  - simpl. now rewrite app_nil_r.
  - cbn [fold_left subtract_run]. rewrite subtract_step_eq.
    destruct (match lookup o k with Some y => isub st v y | None => (st, v) end)
      as [st1 r].
    simpl in Hnd. apply NoDup_cons_iff in Hnd. destruct Hnd as [Hk Hnd].
    rewrite setitem_fresh by (apply Hdis; now left).
    rewrite IH.
    + destruct (subtract_run st1 items o) as [st2 out]. simpl.
      now rewrite <- app_assoc.
    + exact Hnd.
    + intros k' Hk' H. rewrite map_app in H. apply in_app_or in H.
      destruct H as [H|[<-|[]]]; [| contradiction].
      apply (Hdis k'); [now right | exact H].
Qed.

(** On distinct keys [subtract] is the loop key by key. *)
Lemma subtract_as_run : forall st self o,
  NoDup (map fst self) -> subtract st self o = subtract_run st self o.
Proof.
  intros st self o H. unfold subtract.
  rewrite subtract_fold_run; [| exact H | intros k _ []].
  now destruct (subtract_run st self o).
Qed.

End HeapStore.

Section HeapSubtract.
Import Heap.

Lemma set_difference_nil : forall v, set_difference v [] = v.
Proof.
  intro v. unfold set_difference.
  induction v as [|x v IH]; [reflexivity |].
  simpl in *. now rewrite IH.
Qed.

Lemma set_difference_self : forall v, set_difference v v = [].
Proof.
  intro v. unfold set_difference.
  assert (G : forall m, incl m v ->
    filter (fun x => negb (mem Expr_eqb x v)) m = []).
  { induction m as [|x m IH]; intro H; [reflexivity |]. simpl.
    assert (E : mem Expr_eqb x v = true)
      by (apply (mem_In _ Expr_eqb_eq), H; now left).
    rewrite E. simpl. apply IH. intros d Hd. apply H. now right. }
  apply G, incl_refl.
Qed.

Lemma stored_read : forall st (o : Heap.t) k,
  Stencil.stored (read st o) k
  = match lookup o k with
    | Some y => elements (deref st y)
    | None => []
    end.
Proof.
  intros st o k. unfold Stencil.stored.
  induction o as [|[k' y] o IH]; simpl; [reflexivity |].
  destruct (Dimension_eqb k k'); [reflexivity | exact IH].
Qed.

Lemma keys_read : forall st (s : Heap.t), map fst (read st s) = map fst s.
Proof.
  intros st s. unfold read. rewrite map_map. reflexivity.
Qed.

(** What [x -= y] leaves behind. *)
Lemma isub_spec : forall st x y,
  x < List.length st ->
  elements (deref (fst (isub st x y)) (snd (isub st x y)))
  = set_difference (elements (deref st x)) (elements (deref st y))
  /\ snd (isub st x y) < List.length (fst (isub st x y))
  /\ List.length st <= List.length (fst (isub st x y))
  /\ (snd (isub st x y) = x \/ snd (isub st x y) = List.length st)
  /\ forall r, r < List.length st -> r <> x ->
               deref (fst (isub st x y)) r = deref st r.
Proof.
  intros st x y Hx. unfold isub.
  destruct (is_frozen (deref st x)); cbn [alloc fst snd].
  - rewrite deref_app_new, length_app. simpl. repeat split; auto; try lia.
    intros r Hr _. now apply deref_app_old.
  - rewrite deref_write_same, length_write by exact Hx.
    repeat split; auto.
    intros r Hr Hn. apply deref_write_other. congruence.
Qed.

Lemma difference_ext : forall a b b',
  (forall k, In k (map fst a) -> Stencil.stored b k = Stencil.stored b' k) ->
  difference a b = difference a b'.
Proof.
  intros a b b' H. unfold difference. apply map_ext_in.
  intros [k v] Hk. simpl. rewrite H; [reflexivity |].
  apply in_map_iff. now exists (k, v).
Qed.

Lemma read_ext : forall st st' (s : Heap.t),
  (forall k r, In (k, r) s -> deref st' r = deref st r) ->
  read st' s = read st s.
Proof.
  intros st st' s H. unfold read. apply map_ext_in.
  intros [k r] Hk. simpl. now rewrite (H k r Hk).
Qed.

(** The loop, for a receiver whose sets are apart: the outcome reads as
    the difference by value, and no set outside the receiver is
    touched. *)
Lemma subtract_run_read : forall items st o,
  valid st items ->
  (forall k y, lookup o k = Some y -> y < List.length st) ->
  NoDup (map fst items) ->
  separate items o ->
  read (fst (subtract_run st items o)) (snd (subtract_run st items o))
  = difference (read st items) (read st o)
  /\ (forall r, r < List.length st -> ~ In r (map snd items) ->
                deref (fst (subtract_run st items o)) r = deref st r)
  /\ List.length st <= List.length (fst (subtract_run st items o)).
Proof.
  induction items as [|[k v] items IH]; intros st o Hv Ho Hnd [Hrefs Hsep].
  - simpl. auto.
  - cbn [subtract_run].
    simpl in Hnd. apply NoDup_cons_iff in Hnd. destruct Hnd as [Hk Hnd].
    simpl in Hrefs. apply NoDup_cons_iff in Hrefs.
    destruct Hrefs as [Hvr Hrefs].
    assert (Hvv : v < List.length st) by (apply (Hv k); now left).
    assert (Hrest : forall k' r', In (k', r') items ->
                                  r' < List.length st /\ r' <> v /\ k' <> k).
    { intros k' r' H. split; [apply (Hv k'); now right |]. split.
      - intros ->. apply Hvr. apply in_map_iff. now exists (k', v).
      - intros ->. apply Hk. apply in_map_iff. now exists (k, r'). }
    (* the turn of [k] *)
    assert (T : exists st1 r,
      match lookup o k with Some y => isub st v y | None => (st, v) end
      = (st1, r)
      /\ elements (deref st1 r)
         = set_difference (elements (deref st v)) (Stencil.stored (read st o) k)
      /\ r < List.length st1
      /\ List.length st <= List.length st1
      /\ (r = v \/ r = List.length st)
      /\ forall r0, r0 < List.length st -> r0 <> v ->
                    deref st1 r0 = deref st r0).
    { rewrite stored_read. destruct (lookup o k) as [y|].
      - exists (fst (isub st v y)), (snd (isub st v y)).
        split; [now destruct (isub st v y) |]. now apply isub_spec.
      - exists st, v. rewrite set_difference_nil. repeat split; auto. }
    destruct T as (st1 & r & -> & Hel & Hr & Hlen & Hrv & Hframe).
    assert (IH' := IH st1 o).
    destruct (subtract_run st1 items o) as [st2 out] eqn:Erun.
    cbn [fst snd] in *.
    destruct IH' as (IHread & IHframe & IHlen).
    + intros k' r' H. destruct (Hrest k' r' H). lia.
    + intros k' y' H. specialize (Ho k' y' H). lia.
    + exact Hnd.
    + split; [exact Hrefs |]. intros k1 r1 k2 r2 H1 H2 E.
      apply (Hsep k1 r1 k2 r2); [now right | exact H2 | exact E].
    + split; [| split].
      * cbn [read map fst snd]. unfold difference. cbn [map fst snd].
        fold (read st2 out). fold (read st items).
        fold (difference (read st items) (read st o)).
        f_equal.
        -- f_equal. rewrite <- Hel. f_equal. apply IHframe; [exact Hr |].
           intro H. apply in_map_iff in H. destruct H as ([k' r'] & E & H).
           simpl in E. subst r'. destruct (Hrest k' r H) as (H1 & H2 & _).
           destruct Hrv as [->| ->]; [congruence | lia].
        -- rewrite IHread.
           rewrite (read_ext st st1 items).
           ++ apply difference_ext. intros k' Hk'. rewrite !stored_read.
              destruct (lookup o k') as [y'|] eqn:Ey; [| reflexivity].
              rewrite Hframe; [reflexivity | now apply (Ho k') |].
              intros ->. rewrite keys_read in Hk'.
              apply Hk. rewrite (Hsep k v k' v); auto. now left.
           ++ intros k' r' H. destruct (Hrest k' r' H) as (H1 & H2 & _).
              now apply Hframe.
      * intros r0 Hr0 Hn. simpl in Hn.
        rewrite IHframe; [apply Hframe; [exact Hr0 |] | lia | tauto].
        intros ->. apply Hn. now left.
      * lia.
Qed.

End HeapSubtract.

Section HeapSubtractFacts.
Import Heap.

(** X14.  [subtract] by value.  When the sets of the receiver are apart, the
    returned stencil has the dimensions of the receiver in their order,
    and under each of them what the receiver stored less what [o] stores
    for it; a dimension that only [o] has is not added. *)
Theorem subtract_by_value :
  forall st self o,
    valid st self -> valid st o ->
    NoDup (map fst self) ->
    separate self o ->
    read (fst (subtract st self o)) (snd (subtract st self o))
    = difference (read st self) (read st o).
Proof.
  intros st self o Hs Ho Hnd Hsep. rewrite (subtract_as_run _ _ _ Hnd).
  apply subtract_run_read; auto.
  intros k y H. apply (Ho k). now apply hlookup_In.
Qed.

Lemma subtract_by_value_witness :
  read (fst (subtract [mkSet false [EInteger 0; EInteger 1];
                       mkSet false [EInteger 1]]
                      [(Sample.x, 0)] [(Sample.x, 1)]))
       (snd (subtract [mkSet false [EInteger 0; EInteger 1];
                       mkSet false [EInteger 1]]
                      [(Sample.x, 0)] [(Sample.x, 1)]))
  = difference
      (read [mkSet false [EInteger 0; EInteger 1]; mkSet false [EInteger 1]]
            [(Sample.x, 0)])
      (read [mkSet false [EInteger 0; EInteger 1]; mkSet false [EInteger 1]]
            [(Sample.x, 1)]).
Proof.
  apply (subtract_by_value
           [mkSet false [EInteger 0; EInteger 1]; mkSet false [EInteger 1]]
           [(Sample.x, 0)] [(Sample.x, 1)]).
  - intros k r [E|[]]. injection E as <- <-. simpl. lia.
  - intros k r [E|[]]. injection E as <- <-. simpl. lia.
  - repeat constructor. simpl. tauto.
  - split; [repeat constructor; simpl; tauto |].
    intros k r k' r' [E|[]] H Hr. injection E as <- <-. simpl in H.
    destruct (Dimension_eqb k' Sample.x) eqn:Ek; [| discriminate].
    apply Dimension_eqb_eq in Ek. congruence.
Defined.








(** X17.  Subtracting the empty stencil changes nothing and returns the
    receiver's items. *)
Theorem subtract_nothing :
  forall st self,
    NoDup (map fst self) -> subtract st self [] = (st, self).
Proof.
  intros st self Hnd. rewrite (subtract_as_run _ _ _ Hnd). clear Hnd.
  induction self as [|[k v] self IH]; [reflexivity |].
  cbn [subtract_run lookup]. now rewrite IH.
Qed.

Lemma subtract_nothing_witness :
  subtract [mkSet false [EInteger 1]] [(Sample.x, 0)] []
  = ([mkSet false [EInteger 1]], [(Sample.x, 0)]).
Proof.
  apply (subtract_nothing [mkSet false [EInteger 1]] [(Sample.x, 0)]).
  repeat constructor. simpl. tauto.
Defined.

Lemma In_hlookup : forall (s : Heap.t) k r,
  NoDup (map fst s) -> In (k, r) s -> lookup s k = Some r.
Proof.
  induction s as [|[k' w] s IH]; intros k r Hnd H; [destruct H |].
  simpl in Hnd. apply NoDup_cons_iff in Hnd. destruct Hnd as [Hk Hnd].
  simpl. destruct H as [E|H].
  - injection E as <- <-. now rewrite Dimension_eqb_refl.
  - destruct (Dimension_eqb k k') eqn:E.
    + apply Dimension_eqb_eq in E. subst k'. exfalso. apply Hk.
      apply in_map_iff. now exists (k, r).
    + now apply IH.
Qed.

Lemma NoDup_snd_inj : forall (s : Heap.t) k r k',
  NoDup (map snd s) -> In (k, r) s -> In (k', r) s -> k = k'.
Proof.
  induction s as [|[k0 r0] s IH]; intros k r k' Hnd H H'; [destruct H |].
  simpl in Hnd. apply NoDup_cons_iff in Hnd. destruct Hnd as [Hr Hnd].
  assert (N : forall k1, In (k1, r0) s -> False).
  { intros k1 H1. apply Hr. apply in_map_iff. now exists (k1, r0). }
  destruct H as [E|H], H' as [E'|H'].
  - congruence.
  - injection E as <- <-. exfalso. eauto.
  - injection E' as <- <-. exfalso. eauto.
  - now apply (IH k r k').
Qed.

(** X18.  A stencil less itself is empty, whatever it held: [empty] is true of
    the result. *)
Theorem subtract_self_empty :
  forall st self,
    valid st self ->
    NoDup (map fst self) ->
    NoDup (map snd self) ->
    empty (fst (subtract st self self)) (snd (subtract st self self)) = true.
Proof.
  intros st self Hv Hnd Hrefs. rewrite (subtract_as_run _ _ _ Hnd).
  assert (Hsep : separate self self).
  { split; [exact Hrefs |]. intros k r k' r' H H' <-.
    apply hlookup_In in H'. now apply (NoDup_snd_inj self k r k'). }
  destruct (subtract_run_read self st self) as (Hread & _ & _); auto.
  { intros k y H. apply (Hv k). now apply hlookup_In. }
  assert (E : forall st' (s : Heap.t),
    empty st' s
    = forallb (fun kv => List.length (snd kv) =? 0) (read st' s)).
  { intros st' s. unfold empty, read. induction s as [|kv s IH];
      [reflexivity |]. simpl. now rewrite IH. }
  rewrite E.
  cut (forall l, l = difference (read st self) (read st self) ->
                 forallb (fun kv : Dimension * Stencil.Offsets =>
                            List.length (snd kv) =? 0) l = true);
    [intro C; apply C; exact Hread |].
  intros l ->. unfold difference. rewrite forallb_forall.
  intros [k w] H. apply in_map_iff in H. destruct H as ([k' v] & E' & H).
  simpl in E'. injection E' as <- <-. simpl.
  apply in_map_iff in H. destruct H as ([k1 r1] & E1 & H1).
  simpl in E1. injection E1 as <- <-.
  rewrite stored_read, (In_hlookup self k1 r1 Hnd H1).
  now rewrite set_difference_self.
Qed.

Lemma subtract_self_empty_witness :
  empty (fst (subtract [mkSet false [EInteger 0; EInteger 1]]
                       [(Sample.x, 0)] [(Sample.x, 0)]))
        (snd (subtract [mkSet false [EInteger 0; EInteger 1]]
                       [(Sample.x, 0)] [(Sample.x, 0)])) = true.
Proof.
  apply (subtract_self_empty [mkSet false [EInteger 0; EInteger 1]]
           [(Sample.x, 0)]).
  - intros k r [E|[]]. injection E as <- <-. simpl. lia.
  - repeat constructor. simpl. tauto.
  - repeat constructor. simpl. tauto.
Defined.

End HeapSubtractFacts.

Section HeapConstruct.
Import Heap.

Lemma process_items_entries : forall s : Heap.t,
  process_items (entries s) = Some s.
Proof.
  induction s as [|[k r] s IH]; [reflexivity |].
  change (entries ((k, r) :: s)) with (Entry k r :: entries s).
  cbn [process_items]. now rewrite IH.
Qed.

Lemma fold_setitem_fresh : forall (l acc : Heap.t),
  NoDup (map fst l) ->
  (forall k, In k (map fst l) -> ~ In k (map fst acc)) ->
  fold_left (fun s kv => setitem s (fst kv) (snd kv)) l acc = acc ++ l.
Proof.
  induction l as [|[k r] l IH]; intros acc Hnd Hdis; simpl;
    [now rewrite app_nil_r |].
  simpl in Hnd. apply NoDup_cons_iff in Hnd. destruct Hnd as [Hk Hnd].
  rewrite setitem_fresh by (apply Hdis; now left).
  rewrite IH; [now rewrite <- app_assoc | exact Hnd |].
  intros k' Hk' H. rewrite map_app in H. apply in_app_or in H.
  destruct H as [H|[<-|[]]]; [| contradiction].
  apply (Hdis k'); [now right | exact H].
Qed.

Lemma of_pairs_distinct : forall l : Heap.t,
  NoDup (map fst l) -> of_pairs l = l.
Proof.
  intros l H. unfold of_pairs. now rewrite fold_setitem_fresh.
Qed.

(** X19.  Round trip: a stencil built from the entries of another is that
    stencil again, with the very same sets, and nothing is stored. *)
Theorem init_entries :
  forall st s,
    NoDup (map fst s) -> init st [OfItems (entries s)] = Some (st, s).
Proof.
  intros st s H. unfold init. cbn [process].
  rewrite process_items_entries, app_nil_r. now rewrite of_pairs_distinct.
Qed.

Lemma init_entries_witness :
  init [mkSet false [EInteger 1]] [OfItems (entries [(Sample.x, 0)])]
  = Some ([mkSet false [EInteger 1]], [(Sample.x, 0)]).
Proof.
  apply (init_entries [mkSet false [EInteger 1]] [(Sample.x, 0)]).
  repeat constructor. simpl. tauto.
Defined.

Lemma process_items_None : forall items,
  process_items items = None <-> In Other items.
Proof.
  induction items as [|[d r|d r|] items IH]; simpl.
  - split; [discriminate | tauto].
  - destruct (process_items items); rewrite <- IH;
      split; try discriminate; try tauto; intros [H|H]; congruence.
  - destruct (process_items items); rewrite <- IH;
      split; try discriminate; try tauto; intros [H|H]; congruence.
  - split; auto.
Qed.

(** X20.  The constructor raises [RuntimeError] exactly when some item of an
    iterable argument is neither a [StencilEntry] nor a 2-tuple. *)
Theorem init_RuntimeError :
  forall st args,
    init st args = None
    <-> exists items, In (OfItems items) args /\ In Other items.
Proof.
  intros st args. unfold init.
  assert (G : forall st, process st args = None
                         <-> exists items, In (OfItems items) args
                                           /\ In Other items).
  { induction args as [|[expr|items] args IH]; intro st0; simpl.
    - split; [discriminate | intros (i & [] & _)].
    - destruct (Heap.store_all st0 (Stencil.extract expr)) as [st1 its].
      specialize (IH st1). destruct (process st1 args) as [[st2 p]|].
      + split; [discriminate |]. intros (i & [E|H] & Hi); [discriminate |].
        assert (X : Some (st2, p) = None) by (apply IH; eauto).
        discriminate.
      + split; [| reflexivity]. intros _.
        destruct (proj1 IH eq_refl) as (i & H & Hi). eauto.
    - destruct (process_items items) as [p1|] eqn:E1.
      + specialize (IH st0). destruct (process st0 args) as [[st2 p]|].
        * split; [discriminate |]. intros (i & [E|H] & Hi).
          -- injection E as <-. apply process_items_None in Hi. congruence.
          -- assert (X : Some (st2, p) = None) by (apply IH; eauto).
             discriminate.
        * split; [| reflexivity]. intros _.
          destruct (proj1 IH eq_refl) as (i & H & Hi). eauto.
      + split; [| reflexivity]. intros _. exists items.
        split; [now left | now apply process_items_None]. }
  specialize (G st). destruct (process st args) as [[st' p]|];
    [| exact G].
  split; [discriminate |]. intro H. apply G in H. discriminate.
Qed.





Lemma freeze_items_spec : forall (s : Heap.t) st0 acc,
  valid st0 s ->
  exists new ps,
    fst (freeze_items (st0 ++ acc) s) = (st0 ++ acc) ++ new
    /\ process_items (snd (freeze_items (st0 ++ acc) s)) = Some ps
    /\ map fst ps = map fst s
    /\ read ((st0 ++ acc) ++ new) ps = read st0 s
    /\ (forall k r, In (k, r) ps ->
                    is_frozen (deref ((st0 ++ acc) ++ new) r) = true)
    /\ Forall2 (frozen_of st0) s ps.
Proof.
  induction s as [|[k v] s IH]; intros st0 acc Hv.
  - exists [], []. simpl. rewrite app_nil_r. repeat split; auto.
  - cbn [freeze_items]. unfold frozenset.
    assert (Hvv : v < List.length st0) by (apply (Hv k); now left).
    assert (Dv : deref (st0 ++ acc) v = deref st0 v)
      by now apply deref_app_old.
    assert (Hs : valid st0 s) by (intros k' r' H; apply (Hv k'); now right).
    rewrite Dv. destruct (is_frozen (deref st0 v)) eqn:Ef.
    + destruct (IH st0 acc Hs) as (new & ps & H1 & H2 & H3 & H4 & H5 & H6).
      destruct (freeze_items (st0 ++ acc) s) as [st2 items].
      cbn [fst snd] in *. exists new, ((k, v) :: ps).
      assert (D : deref ((st0 ++ acc) ++ new) v = deref st0 v).
      { rewrite <- app_assoc. now apply deref_app_old. }
      split; [exact H1 |]. split; [simpl; now rewrite H2 |].
      split; [simpl; now rewrite H3 |]. split; [| split].
      * cbn [read map fst snd]. fold (read ((st0 ++ acc) ++ new) ps).
        fold (read st0 s). now rewrite H4, D.
      * intros k' r' [Eq|H]; [| now apply (H5 k')].
        injection Eq as <- <-. now rewrite D.
      * constructor; [| exact H6]. unfold frozen_of. cbn [fst snd].
        now rewrite Ef.
    + cbn [alloc].
      set (o := mkSet true (elements (deref st0 v))).
      destruct (IH st0 (acc ++ [o]) Hs)
        as (new & ps & H1 & H2 & H3 & H4 & H5 & H6).
      rewrite app_assoc in H1, H2, H4, H5.
      destruct (freeze_items ((st0 ++ acc) ++ [o]) s) as [st2 items].
      cbn [fst snd] in *.
      exists (o :: new), ((k, List.length (st0 ++ acc)) :: ps).
      assert (E : (st0 ++ acc) ++ o :: new = ((st0 ++ acc) ++ [o]) ++ new)
        by (rewrite <- (app_assoc (st0 ++ acc) [o] new); reflexivity).
      assert (D : deref (((st0 ++ acc) ++ [o]) ++ new)
                        (List.length (st0 ++ acc)) = o).
      { rewrite deref_app_old by (rewrite !length_app; simpl; lia).
        apply deref_app_new. }
      rewrite E. split; [exact H1 |]. split; [simpl; now rewrite H2 |].
      split; [simpl; now rewrite H3 |]. split; [| split].
      * cbn [read map fst snd].
        fold (read (((st0 ++ acc) ++ [o]) ++ new) ps). fold (read st0 s).
        now rewrite H4, D.
      * intros k' r' [Eq|H]; [| now apply (H5 k')].
        injection Eq as <- <-. now rewrite D.
      * constructor; [| exact H6]. unfold frozen_of. cbn [fst snd].
        rewrite Ef, length_app. split; [reflexivity | lia].
Qed.

(** X22.  [frozen] always succeeds.  The stencil it returns has the
    dimensions of the receiver in their order and reads as the receiver
    does; all its sets are frozen: a set of the receiver that is frozen
    already is shared, a mutable one is copied into a new frozenset; no
    set that exists is changed. *)
Theorem frozen_copy :
  forall st s,
    valid st s ->
    NoDup (map fst s) ->
    exists new s',
      frozen st s = Some (st ++ new, s')
      /\ read (st ++ new) s' = read st s
      /\ (forall k r, In (k, r) s' -> is_frozen (deref (st ++ new) r) = true)
      /\ Forall2 (frozen_of st) s s'.
Proof.
  intros st s Hv Hnd. unfold frozen.
  destruct (freeze_items_spec s st [] Hv)
    as (new & ps & H1 & H2 & H3 & H4 & H5 & H6).
  rewrite app_nil_r in H1, H2, H4, H5.
  destruct (freeze_items st s) as [st1 items]. cbn [fst snd] in *. subst st1.
  exists new, ps. unfold init. cbn [process]. rewrite H2, app_nil_r.
  rewrite of_pairs_distinct by now rewrite H3. auto.
Qed.

Lemma frozen_copy_witness :
  exists new s',
    frozen [mkSet false [EInteger 1]; mkSet true [EInteger 2]]
           [(Sample.x, 0); (Sample.y, 1)]
    = Some ([mkSet false [EInteger 1]; mkSet true [EInteger 2]] ++ new, s')
    /\ read ([mkSet false [EInteger 1]; mkSet true [EInteger 2]] ++ new) s'
       = read [mkSet false [EInteger 1]; mkSet true [EInteger 2]]
              [(Sample.x, 0); (Sample.y, 1)]
    /\ (forall k r, In (k, r) s' ->
          is_frozen (deref ([mkSet false [EInteger 1];
                             mkSet true [EInteger 2]] ++ new) r) = true)
    /\ Forall2 (frozen_of [mkSet false [EInteger 1]; mkSet true [EInteger 2]])
               [(Sample.x, 0); (Sample.y, 1)] s'.
Proof.
  apply (frozen_copy [mkSet false [EInteger 1]; mkSet true [EInteger 2]]
           [(Sample.x, 0); (Sample.y, 1)]).
  - intros k r [E|[E|[]]]; injection E as <- <-; simpl; lia.
  - repeat constructor; simpl; [intros [H|[]]; discriminate | tauto].
Defined.

End HeapConstruct.

(** ** The reduction context of the builtins *)

Section Reduction.
Import Builtins.

Lemma grid_eqb_eq : forall g h, grid_eqb g h = true <-> g = h.
Proof.
  intros [a|] [b|]; simpl; try (split; [discriminate | discriminate]);
    [| tauto].
  rewrite Nat.eqb_eq. split; [intros ->; reflexivity |].
  intro E. now injection E.
Qed.

(** A set with one element: the collection is not empty and holds that
    element only. *)
Lemma unique_single {A} (eqb : A -> A -> bool) :
  (forall a b, eqb a b = true <-> a = b) ->
  forall l x,
    unique eqb l = [x] <-> l <> [] /\ forall y, In y l -> y = x.
Proof.
  intros Heq l x. split.
  - intro E. split.
    + intros ->. discriminate.
    + intros y Hy. apply (In_unique _ Heq) in Hy. rewrite E in Hy.
      destruct Hy as [<-|[]]. reflexivity.
  - intros [Hne Hall].
    pose proof (NoDup_unique _ Heq l) as Hnd.
    assert (Hin : forall y, In y (unique eqb l) -> y = x)
      by (intros y Hy; apply Hall; now apply (In_unique _ Heq)).
    destruct (unique eqb l) as [|a [|b u]] eqn:E.
    + destruct l as [|y l]; [congruence |].
      assert (H : In y (unique eqb (y :: l)))
        by (apply (In_unique _ Heq); now left).
      rewrite E in H. destruct H.
    + f_equal. apply Hin. now left.
    + exfalso. apply NoDup_cons_iff in Hnd. destruct Hnd as [Hn _].
      apply Hn. left. rewrite (Hin a), (Hin b); simpl; auto.
Qed.

(** X23.  The context is built exactly when there is at least one
    function and all of them have the same grid (or none has one) and
    dtype objects that a set holds as one, which become those of the
    context; any other call, the one without a function included, raises
    [ValueError]. *)
Theorem MPIReduction_init_spec :
  forall functions op,
    (forall r,
       MPIReduction_init functions op = Ok r
       <-> functions <> []
           /\ (forall f, In f functions ->
                         grid f = r_grid r /\ dtype f = r_dtype r)
           /\ r_v r = None /\ r_op r = op)
    /\ (forall e, MPIReduction_init functions op = Raise e -> e = ValueError).
Proof.
  intros functions op. unfold MPIReduction_init. split.
  - intros [g d v o]. cbn [r_grid r_dtype r_v r_op]. split.
    + intro H.
      destruct (unique grid_eqb (map grid functions)) as [|g0 [|g1 gs]] eqn:Eg;
        cbn [bind] in H;
        destruct (unique Nat.eqb (map dtype functions)) as [|d0 [|d1 ds]] eqn:Ed;
        try discriminate; injection H as <- <- <- <-.
      * apply (unique_single _ Nat.eqb_eq) in Ed. destruct Ed as [Hne _].
        destruct functions as [|f0 fs]; [simpl in Hne; congruence |].
        unfold unique in Eg. simpl in Eg. discriminate Eg.
      * apply (unique_single _ grid_eqb_eq) in Eg.
        apply (unique_single _ Nat.eqb_eq) in Ed.
        destruct Eg as [Hne Hg], Ed as [_ Hd].
        split; [intros ->; now apply Hne |]. split; [| auto].
        intros f Hf. split; [apply Hg | apply Hd]; now apply in_map.
    + intros (Hne & Hall & -> & ->).
      assert (Eg : unique grid_eqb (map grid functions) = [g]).
      { apply (unique_single _ grid_eqb_eq). split.
        - destruct functions; [congruence | discriminate].
        - intros y Hy. apply in_map_iff in Hy. destruct Hy as (f & <- & Hf).
          now apply Hall. }
      assert (Ed : unique Nat.eqb (map dtype functions) = [d]).
      { apply (unique_single _ Nat.eqb_eq). split.
        - destruct functions; [congruence | discriminate].
        - intros y Hy. apply in_map_iff in Hy. destruct Hy as (f & <- & Hf).
          now apply Hall. }
      rewrite Eg, Ed. reflexivity.
  - intros e H.
    destruct (unique grid_eqb (map grid functions)) as [|g0 [|g1 gs]];
      cbn [bind] in H;
      try (destruct (unique Nat.eqb (map dtype functions)) as [|d0 [|d1 ds]]);
      congruence.
Qed.

End Reduction.
